(** * Orbo: lazy, provider-scoped global state for React

    A shallow embedding of [packages/orbo/src/index.tsx]: the provider
    [GlobalStateProvider], the hook factory [createGlobalState] with its
    [initializeSubContext], [updateState] and [subscribe], and the cache of
    [globalStateMemo].

    JavaScript objects that are shared by reference (the provider's context
    data object, every [SubContext] object captured by its closures) live in
    a store: registries are indexed by a provider id, sub contexts by an
    entry id in a heap.  The React side is reduced to what the hooks do with
    it: the value a component keeps in its [useState], and the effect
    cleanups React keeps and runs once.  Calls that the library makes on user
    callbacks are recorded in an event trace. *)

From stdpp Require Import base gmap list.

(** A listener in the [listeners] set of a sub context. *)
Inductive Listener :=
| LSetState (c : nat)   (* [setState] of component [c] (useGlobalState) *)
| LNoop (n : nat).      (* the no-op listener of useSetGlobalState *)

#[global] Instance Listener_eq_dec : EqDecision Listener.
Proof. solve_decision. Defined.

(** ** [globalStateMemo]

    Objects are compared by reference: an initial-values object is an id
    [o] with contents [contents o], a factory is an id [f] whose body is
    [factory f].  The outer [WeakMap] maps a factory to the id of its inner
    [WeakMap]; the memoized closure captures that inner map. *)
Module Memo.
Section Memo.
Context {C R : Type} (contents : nat -> C) (factory : nat -> C -> R).

Record MemoState := {
  outer : gmap nat nat;                 (* globalStateMemoCache *)
  inner : gmap nat (gmap nat R);        (* the contextCaches maps *)
  next_map : nat;
  factory_calls : list (nat * nat) }.   (* (factory, object) per call *)

(** [contextCaches.get] / [has] on the inner map [m]. *)
Definition cache_of (s : MemoState) (m : nat) : gmap nat R :=
  match inner s !! m with Some c => c | None => ∅ end.

(** [globalStateMemo(factory)]: the memoized closure is [(f, m)]. *)
Definition globalStateMemo (f : nat) (s : MemoState) : MemoState * (nat * nat) :=
  match outer s !! f with
  | Some m => (s, (f, m))
  | None =>
      let m := next_map s in
      ({| outer := <[f:=m]> (outer s); inner := <[m:=∅]> (inner s);
          next_map := S m; factory_calls := factory_calls s |}, (f, m))
  end.

(** The returned closure applied to the object [o]; the result is
    [contextCaches.get(initialValues)]. *)
Definition memoized (fm : nat * nat) (o : nat) (s : MemoState)
  : MemoState * option R :=
  let '(f, m) := fm in
  let s' :=
    match cache_of s m !! o with
    | Some _ => s
    | None =>
        let r := factory f (contents o) in
        {| outer := outer s; inner := <[m:=<[o:=r]> (cache_of s m)]> (inner s);
           next_map := next_map s; factory_calls := factory_calls s ++ [(f, o)] |}
    end in
  (s', cache_of s' m !! o).

(** The closure [fm] called on the objects [os] in turn, with the results. *)
Fixpoint memoized_all (fm : nat * nat) (os : list nat) (s : MemoState)
  : MemoState * list (option R) :=
  match os with
  | [] => (s, [])
  | o :: os' =>
      let '(s1, r) := memoized fm o s in
      let '(s2, rs) := memoized_all fm os' s1 in
      (s2, r :: rs)
  end.

(** The objects of [os] not in [seen], each at its first occurrence, in
    order. *)
Fixpoint first_occurrences (seen os : list nat) : list nat :=
  match os with
  | [] => []
  | o :: os' =>
      if decide (o ∈ seen) then first_occurrences seen os'
      else o :: first_occurrences (seen ++ [o]) os'
  end.

End Memo.
End Memo.

Section Orbo.
Context {V IV : Type}.

(** [newState: T | ((prev: T) => T)]: the test
    [typeof newState === "function"] of [updateState] is the constructor. *)
Inductive NewState :=
| NSValue (v : V)
| NSFun (f : V -> V).

Definition apply_new_state (ns : NewState) (prev : V) : V :=
  match ns with
  | NSFun f => f prev
  | NSValue v => v
  end.

(** What an [onSubscribe] callback does when it is called with the initial
    state: the [setState] calls it makes before it returns, and what it
    returns ([None] for [void], [Some c] for a cleanup function [c]). *)
Definition OnSubscribe := V -> list NewState * option nat.

(** [GlobalStateConfig<T>]; [initialState] returns [None] when it throws. *)
Record GlobalStateConfig := {
  initialState : IV -> bool -> option V;
  onHydrate : option unit;
  onSubscribe : option OnSubscribe;
  persistState : option bool }.

(** [SubContext<T>].  [owner] and [stateKey] are the [globalStateContext]
    and [stateKey] captured by the closures [updateState] and [subscribe]. *)
Record SubContext := {
  value : V;
  initialized : bool;
  listeners : list Listener;
  cleanup : option nat;
  owner : nat;
  stateKey : nat }.

(** [GlobalStateContextData]: the map from a slice configuration (its
    identity is a number) to the entry id of its sub context. *)
Record GlobalStateContextData := {
  initialValues : IV;
  subContexts : gmap nat nat;
  isHydrated : bool }.

(** Calls of user code, and the point where a sub context's subscriber
    count drops to zero. *)
Inductive Event :=
| EvInitialState (p k : nat) (hydrated : bool)
| EvOnSubscribe (p k e : nat) (init : V)
| EvNotify (l : Listener) (v : V)
| EvCleanup (k c : nat)
| EvOnHydrate (k : nat)
| EvLastUnsubscribe (e : nat).

Record World := {
  regs : gmap nat GlobalStateContextData;   (* contextData.current per provider *)
  heap : gmap nat SubContext;               (* SubContext objects *)
  next_eid : nat;
  locals : gmap nat V;                      (* useState of each component *)
  handles : gmap nat (nat * Listener);      (* effect cleanups kept by React *)
  trace : list Event }.

Definition set_regs (r : gmap nat GlobalStateContextData) (w : World) : World :=
  {| regs := r; heap := heap w; next_eid := next_eid w; locals := locals w;
     handles := handles w; trace := trace w |}.
Definition set_heap (h : gmap nat SubContext) (w : World) : World :=
  {| regs := regs w; heap := h; next_eid := next_eid w; locals := locals w;
     handles := handles w; trace := trace w |}.
Definition set_next (n : nat) (w : World) : World :=
  {| regs := regs w; heap := heap w; next_eid := n; locals := locals w;
     handles := handles w; trace := trace w |}.
Definition set_locals (l : gmap nat V) (w : World) : World :=
  {| regs := regs w; heap := heap w; next_eid := next_eid w; locals := l;
     handles := handles w; trace := trace w |}.
Definition set_handles (hs : gmap nat (nat * Listener)) (w : World) : World :=
  {| regs := regs w; heap := heap w; next_eid := next_eid w; locals := locals w;
     handles := hs; trace := trace w |}.
Definition add_event (ev : Event) (w : World) : World :=
  {| regs := regs w; heap := heap w; next_eid := next_eid w; locals := locals w;
     handles := handles w; trace := trace w ++ [ev] |}.

Definition with_value (sc : SubContext) (v : V) : SubContext :=
  {| value := v; initialized := initialized sc; listeners := listeners sc;
     cleanup := cleanup sc; owner := owner sc; stateKey := stateKey sc |}.
Definition with_initialized (sc : SubContext) (b : bool) : SubContext :=
  {| value := value sc; initialized := b; listeners := listeners sc;
     cleanup := cleanup sc; owner := owner sc; stateKey := stateKey sc |}.
Definition with_listeners (sc : SubContext) (ls : list Listener) : SubContext :=
  {| value := value sc; initialized := initialized sc; listeners := ls;
     cleanup := cleanup sc; owner := owner sc; stateKey := stateKey sc |}.
Definition with_cleanup (sc : SubContext) (c : option nat) : SubContext :=
  {| value := value sc; initialized := initialized sc; listeners := listeners sc;
     cleanup := c; owner := owner sc; stateKey := stateKey sc |}.
Definition with_subContexts (ctx : GlobalStateContextData) (m : gmap nat nat)
  : GlobalStateContextData :=
  {| initialValues := initialValues ctx; subContexts := m;
     isHydrated := isHydrated ctx |}.
Definition with_hydrated (ctx : GlobalStateContextData) (b : bool)
  : GlobalStateContextData :=
  {| initialValues := initialValues ctx; subContexts := subContexts ctx;
     isHydrated := b |}.

(** ** The state and exception monad

    [None] is a thrown exception; the world at the point of the throw is
    kept, as JavaScript keeps the mutations done before a throw. *)
Definition M (A : Type) := World -> World * option A.

#[global] Instance M_ret : MRet M := fun A a w => (w, Some a).
#[global] Instance M_bind : MBind M := fun A B f m w =>
  match m w with
  | (w', Some a) => f a w'
  | (w', None) => (w', None)
  end.

Definition throw {A} : M A := fun w => (w, None).
Definition modify (f : World -> World) : M unit := fun w => (f w, Some tt).
Definition get_world : M World := fun w => (w, Some w).
Definition emit (ev : Event) : M unit := modify (add_event ev).
Definition lift {A} (o : option A) : M A :=
  match o with Some a => mret a | None => throw end.

(** [use(GlobalStateContext)!]: outside a provider it is [undefined] and the
    first property access throws. *)
Definition get_ctx (p : nat) : M GlobalStateContextData :=
  fun w => match regs w !! p with
           | Some ctx => (w, Some ctx)
           | None => (w, None)
           end.
Definition put_ctx (p : nat) (ctx : GlobalStateContextData) : M unit :=
  modify (fun w => set_regs (<[p:=ctx]> (regs w)) w).
Definition load (e : nat) : M SubContext :=
  fun w => match heap w !! e with
           | Some sc => (w, Some sc)
           | None => (w, None)
           end.
Definition store (e : nat) (sc : SubContext) : M unit :=
  modify (fun w => set_heap (<[e:=sc]> (heap w)) w).
Definition alloc (sc : SubContext) : M nat :=
  fun w => let e := next_eid w in
           (set_next (S e) (set_heap (<[e:=sc]> (heap w)) w), Some e).
Definition set_local (c : nat) (v : V) : M unit :=
  modify (fun w => set_locals (<[c:=v]> (locals w)) w).

(** ** [createGlobalState]

    [has_window] is [typeof window !== "undefined"]; [cfg k] is the
    configuration object whose identity is [k] (it is also the [stateKey]). *)
Context (has_window : bool) (cfg : nat -> GlobalStateConfig).

(** [(typeof window !== "undefined" && config.onSubscribe) || (() => {})];
    [None] stands for [() => {}]. *)
Definition effective_onSubscribe (k : nat) : option OnSubscribe :=
  if has_window then onSubscribe (cfg k) else None.

(** The same for [onHydrate]. *)
Definition effective_onHydrate (k : nat) : option unit :=
  if has_window then onHydrate (cfg k) else None.

(** One listener call [setter(newSubContext.value)]. *)
Definition call_listener (l : Listener) (v : V) : M unit :=
  emit (EvNotify l v);;
  match l with
  | LSetState c => set_local c v
  | LNoop _ => mret tt
  end.

(** [listeners.forEach((setter) => setter(newSubContext.value))]. *)
Fixpoint forEach_listener (ls : list Listener) (v : V) : M unit :=
  match ls with
  | [] => mret tt
  | l :: ls' => call_listener l v;; forEach_listener ls' v
  end.

(** [updateState] of the sub context object [e]. *)
Definition updateState (e : nat) (ns : NewState) : M unit :=
  sc ← load e;
  let v := apply_new_state ns (value sc) in
  store e (with_value sc v);;
  forEach_listener (listeners sc) v.

(** The [setState] calls an [onSubscribe] callback makes before returning. *)
Fixpoint updateStates (e : nat) (ups : list NewState) : M unit :=
  match ups with
  | [] => mret tt
  | u :: us => updateState e u;; updateStates e us
  end.

(** [onSubscribe(subContext.updateState, subContext.value)]: its result is
    the new [cleanup]. *)
Definition call_onSubscribe (p k e : nat) (init : V) : M (option nat) :=
  match effective_onSubscribe k with
  | None => mret None
  | Some f =>
      emit (EvOnSubscribe p k e init);;
      let '(ups, c) := f init in
      updateStates e ups;;
      mret c
  end.

(** [listeners.add(setter)] and [listeners.delete(setter)] on a [Set]. *)
Definition set_add (l : Listener) (ls : list Listener) : list Listener :=
  if decide (l ∈ ls) then ls else ls ++ [l].
Definition set_delete (l : Listener) (ls : list Listener) : list Listener :=
  filter (fun l' => l' <> l) ls.

(** [initializeSubContext(globalStateContext)] for the provider [p] and the
    configuration [k]; it returns the sub context object. *)
Definition initializeSubContext (p k : nat) : M nat :=
  ctx ← get_ctx p;
  match subContexts ctx !! k with
  | None =>
      emit (EvInitialState p k (isHydrated ctx));;
      v ← lift (initialState (cfg k) (initialValues ctx) (isHydrated ctx));
      e ← alloc {| value := v; initialized := true; listeners := [];
                   cleanup := None; owner := p; stateKey := k |};
      c ← call_onSubscribe p k e v;
      sc ← load e;
      store e (with_cleanup sc c);;
      ctx' ← get_ctx p;
      put_ctx p (with_subContexts ctx' (<[k:=e]> (subContexts ctx')));;
      mret e
  | Some e =>
      sc ← load e;
      if initialized sc then mret e
      else
        c ← call_onSubscribe p k e (value sc);
        sc' ← load e;
        store e (with_cleanup sc' c);;
        sc'' ← load e;
        store e (with_initialized sc'' true);;
        mret e
  end.

(** [subscribe(setter)] of the sub context [e]: it returns the
    unsubscribe closure, represented by [(e, setter)]. *)
Definition subscribe (e : nat) (l : Listener) : M (nat * Listener) :=
  sc ← load e;
  store e (with_listeners sc (set_add l (listeners sc)));;
  mret (e, l).

(** The closure returned by [subscribe]. *)
Definition unsubscribe (e : nat) (l : Listener) : M unit :=
  sc ← load e;
  let ls := set_delete l (listeners sc) in
  store e (with_listeners sc ls);;
  match ls with
  | [] =>
      sc1 ← load e;
      store e (with_initialized sc1 false);;
      emit (EvLastUnsubscribe e);;
      (match persistState (cfg (stateKey sc)) with
       | Some false =>
           ctx ← get_ctx (owner sc);
           put_ctx (owner sc)
             (with_subContexts ctx (delete (stateKey sc) (subContexts ctx)))
       | _ => mret tt
       end);;
      sc2 ← load e;
      match cleanup sc2 with
      | Some c => emit (EvCleanup (stateKey sc) c)
      | None => mret tt
      end
  | _ :: _ => mret tt
  end.

(** [subContexts.forEach((subContext) => subContext.onHydrate())] (in key
    order; only the calls matter here). *)
Fixpoint forEach_onHydrate (es : list (nat * nat)) : M unit :=
  match es with
  | [] => mret tt
  | (_, e) :: es' =>
      sc ← load e;
      (match effective_onHydrate (stateKey sc) with
       | Some _ => emit (EvOnHydrate (stateKey sc))
       | None => mret tt
       end);;
      forEach_onHydrate es'
  end.

(** What React does with the provider [p] and the two hooks. *)
Inductive Op :=
| Mount (p : nat) (iv : IV)        (* first render of GlobalStateProvider *)
| Hydrate (p : nat)                (* the provider's mount effect *)
| RenderGet (p k c : nat)          (* useGlobalState: useState initializer *)
| EffectGet (p k c h : nat)        (* useGlobalState: subscribe effect *)
| EffectSet (p k n h : nat)        (* useSetGlobalState: subscribe effect *)
| CallSet (p k : nat) (ns : NewState)  (* calling the returned setter *)
| EffectCleanup (h : nat).         (* React runs an effect cleanup, once *)

Definition exec (o : Op) : M unit :=
  match o with
  | Mount p iv =>
      w ← get_world;
      match regs w !! p with
      | Some _ => mret tt        (* useRef keeps the first object *)
      | None => put_ctx p {| initialValues := iv; subContexts := ∅;
                             isHydrated := false |}
      end
  | Hydrate p =>
      ctx ← get_ctx p;
      put_ctx p (with_hydrated ctx true);;
      ctx' ← get_ctx p;
      forEach_onHydrate (map_to_list (subContexts ctx'))
  | RenderGet p k c =>
      e ← initializeSubContext p k;
      sc ← load e;
      set_local c (value sc)
  | EffectGet p k c h =>
      e ← initializeSubContext p k;
      r ← subscribe e (LSetState c);
      modify (fun w => set_handles (<[h:=r]> (handles w)) w)
  | EffectSet p k n h =>
      e ← initializeSubContext p k;
      r ← subscribe e (LNoop n);
      modify (fun w => set_handles (<[h:=r]> (handles w)) w)
  | CallSet p k ns =>
      e ← initializeSubContext p k;
      updateState e ns
  | EffectCleanup h =>
      w ← get_world;
      match handles w !! h with
      | Some (e, l) =>
          modify (fun w => set_handles (delete h (handles w)) w);;
          unsubscribe e l
      | None => mret tt
      end
  end.

(** A sequence of operations; an exception thrown by one (caught by an
    error boundary) leaves the world as it was at the throw. *)
Fixpoint run (os : list Op) (w : World) : World :=
  match os with
  | [] => w
  | o :: os' => run os' (exec o w).1
  end.

Definition empty_world : World :=
  {| regs := ∅; heap := ∅; next_eid := 0; locals := ∅; handles := ∅;
     trace := [] |}.

(** ** Observations on a world *)

(** The sub context a provider holds for a configuration. *)
Definition entry_of (w : World) (p k : nat) : option SubContext :=
  ctx ← regs w !! p; e ← subContexts ctx !! k; heap w !! e.

(** Every registry binding points to an object of that provider and key,
    and the entry ids from [next_eid] on are still free. *)
Definition wf (w : World) : Prop :=
  (forall p ctx k e, regs w !! p = Some ctx -> subContexts ctx !! k = Some e ->
     exists sc, heap w !! e = Some sc /\ owner sc = p /\ stateKey sc = k) /\
  (forall e, next_eid w <= e -> heap w !! e = None).

(** Calls of client-only user code: [onSubscribe], the cleanup it returns,
    and [onHydrate]. *)
Definition client_only_event (ev : Event) : bool :=
  match ev with
  | EvOnSubscribe _ _ _ _ | EvCleanup _ _ | EvOnHydrate _ => true
  | _ => false
  end.

(** Scanning a trace for the entry [e]: [Some true] when [onSubscribe] may
    run for [e] (no call yet, or the count dropped to zero since the last
    one), [Some false] when it has run in the current epoch, [None] once it
    has run twice in one epoch. *)
Definition epoch_step (e : nat) (st : option bool) (ev : Event) : option bool :=
  match st with
  | None => None
  | Some armed =>
      match ev with
      | EvOnSubscribe _ _ e' _ =>
          if decide (e' = e) then (if armed then Some false else None)
          else Some armed
      | EvLastUnsubscribe e' => if decide (e' = e) then Some true else Some armed
      | _ => Some armed
      end
  end.

Definition epoch_scan (e : nat) (tr : list Event) : option bool :=
  foldl (epoch_step e) (Some true) tr.

Definition is_onSubscribe_of (e : nat) (ev : Event) : bool :=
  match ev with EvOnSubscribe _ _ e' _ => bool_decide (e' = e) | _ => false end.

(** The value a sub context holds once the synchronous [setState] calls of
    [onSubscribe] have run. *)
Definition after_onSubscribe (k : nat) (v : V) : V :=
  match effective_onSubscribe k with
  | None => v
  | Some f => foldl (fun v u => apply_new_state u v) v (f v).1
  end.

(** What the listener calls of [forEach_listener] do to the components'
    [useState] values. *)
Definition notify_locals (ls : list Listener) (v : V) (loc : gmap nat V)
  : gmap nat V :=
  foldl (fun loc l => match l with
                      | LSetState c => <[c:=v]> loc
                      | LNoop _ => loc
                      end) loc ls.

Definition is_notify (ev : Event) : bool :=
  match ev with EvNotify _ _ => true | _ => false end.
Definition is_onHydrate (ev : Event) : bool :=
  match ev with EvOnHydrate _ => true | _ => false end.

(** The calls and the result of an [onSubscribe] call with initial state [v]. *)
Definition onSubscribe_calls (p k e : nat) (v : V) : list Event :=
  match effective_onSubscribe k with
  | Some _ => [EvOnSubscribe p k e v]
  | None => []
  end.
Definition onSubscribe_cleanup (k : nat) (v : V) : option nat :=
  match effective_onSubscribe k with
  | Some f => (f v).2
  | None => None
  end.

(** ** Invariants *)

(** [m] keeps the world property [I]. *)
Definition preserves (I : World -> Prop) {A} (m : M A) : Prop :=
  forall w, I w -> I (m w).1.

(** The configuration an operation accesses, if any. *)
Definition op_key (o : Op) : option nat :=
  match o with
  | RenderGet _ k _ | EffectGet _ k _ _ | EffectSet _ k _ _ | CallSet _ k _ => Some k
  | _ => None
  end.

(** An [onSubscribe] call for [e] runs only when it may ([Some true]); the
    entry is marked as initialized whenever one ran in the current epoch;
    and free entry ids carry no history. *)
Definition epoch_inv (w : World) : Prop :=
  (forall e, next_eid w <= e -> heap w !! e = None) /\
  (forall e, exists a, epoch_scan e (trace w) = Some a /\
     (a = false -> exists sc, heap w !! e = Some sc /\ initialized sc = true) /\
     (heap w !! e = None -> a = true)).

(** No client-only callback has run, and no cleanup function is stored. *)
Definition ssr_inv (w : World) : Prop :=
  Forall (fun ev => client_only_event ev = false) (trace w) /\
  (forall e sc, heap w !! e = Some sc -> cleanup sc = None).

Definition is_initialState_of (k : nat) (ev : Event) : bool :=
  match ev with EvInitialState _ k' _ => bool_decide (k' = k) | _ => false end.

(** The configuration [k] has never been initialized and has no entry. *)
Definition untouched_inv (k : nat) (w : World) : Prop :=
  Forall (fun ev => is_initialState_of k ev = false) (trace w) /\
  (forall p ctx, regs w !! p = Some ctx -> subContexts ctx !! k = None).

(** The id a provider's registry holds for a configuration. *)
Definition sub_at (w : World) (p k : nat) : option nat :=
  ctx ← regs w !! p; subContexts ctx !! k.

(** The provider an operation runs under, if any. *)
Definition op_provider (o : Op) : option nat :=
  match o with
  | Mount p _ | Hydrate p | RenderGet p _ _ | EffectGet p _ _ _
  | EffectSet p _ _ _ | CallSet p _ _ => Some p
  | EffectCleanup _ => None
  end.

(** From [w] to [w'] only the configuration [k] of the provider [p] moved:
    other registries are the same, the provider's other bindings are the
    same, and entries of other providers or configurations are the same. *)
Definition frame_pk (p k : nat) (w w' : World) : Prop :=
  (forall q, q <> p -> regs w' !! q = regs w !! q) /\
  (forall k', k' <> k -> sub_at w' p k' = sub_at w p k') /\
  (forall e sc, heap w !! e = Some sc -> owner sc <> p \/ stateKey sc <> k ->
     heap w' !! e = Some sc).

(** The listeners a list of events notifies, in order. *)
Fixpoint notified_listeners (evs : list Event) : list Listener :=
  match evs with
  | [] => []
  | EvNotify l _ :: evs' => l :: notified_listeners evs'
  | _ :: evs' => notified_listeners evs'
  end.

(** Events that do not move any entry's epoch. *)
Definition epoch_neutral (ev : Event) : bool :=
  match ev with
  | EvOnSubscribe _ _ _ _ | EvLastUnsubscribe _ => false
  | _ => true
  end.

(** The provider's first render, the one operation that needs no provider. *)
Definition is_mount (o : Op) : bool :=
  match o with Mount _ _ => true | _ => false end.

(** The [onHydrate] calls of the provider effect for the registry
    bindings [es], one per binding whose configuration has [onHydrate]. *)
Definition hydrate_events (es : list (nat * nat)) : list Event :=
  flat_map (fun '(k, _) => match effective_onHydrate k with
                           | Some _ => [EvOnHydrate k]
                           | None => []
                           end) es.

(** The call of the stored cleanup, if there is one. *)
Definition cleanup_events (sc : SubContext) : list Event :=
  match cleanup sc with
  | Some c => [EvCleanup (stateKey sc) c]
  | None => []
  end.

(** Every [listeners] list holds a listener at most once, as a [Set]. *)
Definition listeners_nodup (w : World) : Prop :=
  forall e sc, heap w !! e = Some sc -> NoDup (listeners sc).

(** A sub context with subscribers is marked as initialized. *)
Definition subscribed_initialized (w : World) : Prop :=
  forall e sc, heap w !! e = Some sc -> listeners sc <> [] -> initialized sc = true.

End Orbo.

(** * Example configurations *)

(** [createGlobalState({ initialState: () => 0 })]. *)
Definition cfg_plain : nat -> @GlobalStateConfig nat unit := fun _ =>
  {| initialState := fun _ _ => Some 0; onHydrate := None; onSubscribe := None;
     persistState := None |}.

(** An [onSubscribe] that synchronously sets the state to 1 (say, from
    local storage) and returns the cleanup 7. *)
Definition cfg_sync : nat -> @GlobalStateConfig nat unit := fun _ =>
  {| initialState := fun _ _ => Some 0; onHydrate := None;
     onSubscribe := Some (fun _ => ([NSValue 1], Some 7)); persistState := None |}.

(** [persistState: false]. *)
Definition cfg_evict : nat -> @GlobalStateConfig nat unit := fun _ =>
  {| initialState := fun _ _ => Some 0; onHydrate := None; onSubscribe := None;
     persistState := Some false |}.

(** An [initialState] that throws. *)
Definition cfg_throw : nat -> @GlobalStateConfig nat unit := fun _ =>
  {| initialState := fun _ _ => None; onHydrate := None; onSubscribe := None;
     persistState := None |}.

(** An [initialState] that tells the hydration flag apart, and an
    [onHydrate]. *)
Definition cfg_hydrate : nat -> @GlobalStateConfig nat unit := fun _ =>
  {| initialState := fun _ hydrated => Some (if hydrated then 1 else 0);
     onHydrate := Some tt; onSubscribe := None; persistState := None |}.

(** First render of one reader. *)
Definition ops_first_render : list (@Op nat unit) := [Mount 0 tt; RenderGet 0 0 1].

(** Reader 1 renders and subscribes; reader 2 renders; the state is set to
    1 before reader 2's subscribe effect runs. *)
Definition ops_late_subscriber : list (@Op nat unit) :=
  [Mount 0 tt; RenderGet 0 0 1; EffectGet 0 0 1 10; RenderGet 0 0 2;
   CallSet 0 0 (NSValue 1); EffectGet 0 0 2 11].

(** A reader subscribes, unmounts and mounts again. *)
Definition ops_resubscribe : list (@Op nat unit) :=
  [Mount 0 tt; EffectGet 0 0 1 10; EffectCleanup 10; EffectGet 0 0 1 11].

(** Two providers and one reader subscribed under each. *)
Definition ops_two_providers : list (@Op nat unit) :=
  [Mount 0 tt; Mount 1 tt; EffectGet 0 0 1 10; EffectGet 1 0 2 11].

(** A provider with a subscribed reader of the configuration 0. *)
Definition ops_one_reader : list (@Op nat unit) := [Mount 0 tt; EffectGet 0 0 1 10].

(** * Proofs *)

Section OrboProofs.
Context {V IV : Type} (has_window : bool) (cfg : nat -> @GlobalStateConfig V IV).

Lemma bind_eq {A B} (m : @M V IV A) (f : A -> M B) w :
  (m ≫= f) w = match m w with
               | (w', Some a) => f a w'
               | (w', None) => (w', None)
               end.
Proof. reflexivity. Qed.

Lemma forEach_listener_spec ls (v : V) (w : @World V IV) :
  forEach_listener ls v w =
  ({| regs := regs w; heap := heap w; next_eid := next_eid w;
      locals := notify_locals ls v (locals w); handles := handles w;
      trace := trace w ++ map (fun l => EvNotify l v) ls |}, Some tt).
Proof.
  revert w; induction ls as [|l ls IH]; intros w; simpl.
  - destruct w; simpl; rewrite app_nil_r; reflexivity.
  - rewrite bind_eq. unfold call_listener. rewrite bind_eq. simpl.
    destruct l as [c|n]; simpl; rewrite IH; simpl;
      rewrite <- app_assoc; reflexivity.
Qed.

Lemma with_value_same (sc : @SubContext V) : with_value sc (value sc) = sc.
Proof. destruct sc; reflexivity. Qed.

Lemma with_value_twice (sc : @SubContext V) a b :
  with_value (with_value sc a) b = with_value sc b.
Proof. destruct sc; reflexivity. Qed.

Lemma updateState_spec e ns (sc : @SubContext V) (w : @World V IV) :
  heap w !! e = Some sc ->
  updateState e ns w =
  (let v := apply_new_state ns (value sc) in
   ({| regs := regs w; heap := <[e:=with_value sc v]> (heap w);
       next_eid := next_eid w;
       locals := notify_locals (listeners sc) v (locals w);
       handles := handles w;
       trace := trace w ++ map (fun l => EvNotify l v) (listeners sc) |},
    Some tt)).
Proof.
  intros He. unfold updateState. rewrite bind_eq. unfold load. rewrite He.
  rewrite bind_eq. unfold store, modify. rewrite forEach_listener_spec.
  reflexivity.
Qed.

Lemma updateState_dangling e ns (w : @World V IV) :
  heap w !! e = None -> updateState e ns w = (w, None).
Proof.
  intros He. unfold updateState. rewrite bind_eq. unfold load. rewrite He.
  reflexivity.
Qed.

Lemma updateStates_spec e ups (sc : @SubContext V) (w : @World V IV) :
  heap w !! e = Some sc ->
  exists loc evs,
    updateStates e ups w =
    ({| regs := regs w;
        heap := <[e:=with_value sc
                    (foldl (fun v u => apply_new_state u v) (value sc) ups)]>
                  (heap w);
        next_eid := next_eid w; locals := loc; handles := handles w;
        trace := trace w ++ evs |}, Some tt) /\
    Forall (fun ev => is_notify ev = true) evs.
Proof.
  revert sc w; induction ups as [|u us IH]; intros sc w He; simpl.
  - exists (locals w), []. split; [|constructor].
    rewrite with_value_same, insert_id by done. rewrite app_nil_r.
    destruct w; reflexivity.
  - rewrite bind_eq. rewrite (updateState_spec _ _ sc) by done.
    cbv beta iota zeta.
    lazymatch goal with
    | |- context [updateStates e us ?w1] =>
        destruct (IH (with_value sc (apply_new_state u (value sc))) w1
                    (lookup_insert_eq _ _ _)) as (loc & evs & Heq & Hevs);
        rewrite Heq
    end.
    cbn [regs heap next_eid locals handles trace].
    exists loc, (map (fun l => EvNotify l (apply_new_state u (value sc)))
                   (listeners sc) ++ evs).
    split.
    + rewrite with_value_twice, insert_insert_eq, app_assoc. reflexivity.
    + apply Forall_app. split; [|done].
      apply Forall_forall. intros ev Hin. apply list_elem_of_In in Hin.
      apply in_map_iff in Hin. destruct Hin as (l & <- & _). reflexivity.
Qed.

Lemma call_onSubscribe_spec p k e (sc : @SubContext V) (w : @World V IV) :
  heap w !! e = Some sc ->
  exists loc evs,
    call_onSubscribe has_window cfg p k e (value sc) w =
    ({| regs := regs w;
        heap := <[e:=with_value sc (after_onSubscribe has_window cfg k (value sc))]>
                  (heap w);
        next_eid := next_eid w; locals := loc; handles := handles w;
        trace := trace w ++ onSubscribe_calls has_window cfg p k e (value sc) ++ evs |},
     Some (onSubscribe_cleanup has_window cfg k (value sc))) /\
    Forall (fun ev => is_notify ev = true) evs.
Proof.
  intros He. unfold call_onSubscribe, after_onSubscribe, onSubscribe_calls,
    onSubscribe_cleanup.
  destruct (effective_onSubscribe has_window cfg k) as [f|].
  - rewrite bind_eq. unfold emit, modify. destruct (f (value sc)) as [ups c].
    simpl. rewrite bind_eq.
    destruct (updateStates_spec e ups sc (add_event (EvOnSubscribe p k e (value sc)) w))
      as (loc & evs & Heq & Hevs); [exact He|].
    rewrite Heq. exists loc, evs. split; [|done].
    simpl. rewrite <- app_assoc. reflexivity.
  - exists (locals w), []. split; [|constructor].
    rewrite with_value_same, insert_id by done. rewrite !app_nil_r.
    destruct w; reflexivity.
Qed.

Ltac wsimpl :=
  cbn [regs heap next_eid locals handles trace set_heap set_next set_regs
       set_locals set_handles add_event value initialized listeners cleanup
       owner stateKey with_value with_initialized with_listeners with_cleanup
       with_subContexts with_hydrated subContexts initialValues isHydrated
       fst snd].

(** Without listeners the synchronous updates notify nobody. *)
Lemma updateStates_silent e ups (sc : @SubContext V) (w : @World V IV) :
  heap w !! e = Some sc -> listeners sc = [] ->
  updateStates e ups w =
  (set_heap (<[e:=with_value sc (foldl (fun v u => apply_new_state u v) (value sc) ups)]>
               (heap w)) w, Some tt).
Proof.
  revert sc w; induction ups as [|u us IH]; intros sc w He Hl; simpl.
  - rewrite with_value_same, insert_id by done. destruct w; reflexivity.
  - rewrite bind_eq. rewrite (updateState_spec _ _ sc) by done.
    cbv beta iota zeta. rewrite Hl. cbn [notify_locals foldl map]. rewrite app_nil_r.
    lazymatch goal with
    | |- context [updateStates e us ?w1] =>
        rewrite (IH (with_value sc (apply_new_state u (value sc))) w1
                   (lookup_insert_eq _ _ _) Hl)
    end.
    unfold set_heap. wsimpl. rewrite with_value_twice, insert_insert_eq.
    reflexivity.
Qed.

Lemma call_onSubscribe_silent p k e (sc : @SubContext V) (w : @World V IV) :
  heap w !! e = Some sc -> listeners sc = [] ->
  call_onSubscribe has_window cfg p k e (value sc) w =
  ({| regs := regs w;
      heap := <[e:=with_value sc (after_onSubscribe has_window cfg k (value sc))]>
                (heap w);
      next_eid := next_eid w; locals := locals w; handles := handles w;
      trace := trace w ++ onSubscribe_calls has_window cfg p k e (value sc) |},
   Some (onSubscribe_cleanup has_window cfg k (value sc))).
Proof.
  intros He Hl. unfold call_onSubscribe, after_onSubscribe, onSubscribe_calls,
    onSubscribe_cleanup.
  destruct (effective_onSubscribe has_window cfg k) as [f|].
  - rewrite bind_eq. unfold emit, modify. destruct (f (value sc)) as [ups c].
    simpl. rewrite bind_eq.
    rewrite (updateStates_silent e ups sc (add_event (EvOnSubscribe p k e (value sc)) w))
      by done.
    reflexivity.
  - rewrite with_value_same, insert_id by done. rewrite !app_nil_r.
    destruct w; reflexivity.
Qed.

Lemma init_no_provider p k (w : @World V IV) :
  regs w !! p = None ->
  initializeSubContext has_window cfg p k w = (w, None).
Proof.
  intros Hp. unfold initializeSubContext. rewrite bind_eq. unfold get_ctx.
  rewrite Hp. reflexivity.
Qed.

Lemma init_throws p k ctx (w : @World V IV) :
  regs w !! p = Some ctx -> subContexts ctx !! k = None ->
  initialState (cfg k) (initialValues ctx) (isHydrated ctx) = None ->
  initializeSubContext has_window cfg p k w =
  (add_event (EvInitialState p k (isHydrated ctx)) w, None).
Proof.
  intros Hp Hk Hi. unfold initializeSubContext. rewrite bind_eq.
  unfold get_ctx at 1. rewrite Hp. rewrite Hk. rewrite bind_eq.
  unfold emit, modify. rewrite bind_eq. rewrite Hi. reflexivity.
Qed.

Lemma init_create p k ctx v (w : @World V IV) :
  regs w !! p = Some ctx -> subContexts ctx !! k = None ->
  initialState (cfg k) (initialValues ctx) (isHydrated ctx) = Some v ->
  exists loc evs,
    initializeSubContext has_window cfg p k w =
    ({| regs := <[p:=with_subContexts ctx (<[k:=next_eid w]> (subContexts ctx))]>
                  (regs w);
        heap := <[next_eid w:={| value := after_onSubscribe has_window cfg k v;
                                 initialized := true; listeners := [];
                                 cleanup := onSubscribe_cleanup has_window cfg k v;
                                 owner := p; stateKey := k |}]> (heap w);
        next_eid := S (next_eid w); locals := loc; handles := handles w;
        trace := trace w ++ EvInitialState p k (isHydrated ctx)
                   :: onSubscribe_calls has_window cfg p k (next_eid w) v ++ evs |},
     Some (next_eid w)) /\
    Forall (fun ev => is_notify ev = true) evs.
Proof.
  intros Hp Hk Hi. unfold initializeSubContext. rewrite bind_eq.
  unfold get_ctx at 1. rewrite Hp. rewrite Hk. rewrite bind_eq.
  unfold emit at 1, modify at 1. rewrite bind_eq. rewrite Hi. unfold lift, mret, M_ret.
  rewrite bind_eq. unfold alloc at 1.
  set (sc0 := {| value := v; initialized := true; listeners := []; cleanup := None;
                 owner := p; stateKey := k |}).
  rewrite bind_eq.
  set (w2 := set_next _ _).
  destruct (call_onSubscribe_spec p k (next_eid (add_event (EvInitialState p k (isHydrated ctx)) w)) sc0 w2)
    as (loc & evs & Heq & Hevs).
  { apply lookup_insert_eq. }
  cbn [value sc0] in Heq. rewrite Heq. clear Heq.
  exists loc, evs. split; [|done].
  subst w2. wsimpl.
  rewrite bind_eq. unfold load at 1. wsimpl. rewrite lookup_insert_eq.
  cbv beta iota zeta.
  rewrite bind_eq. unfold store at 1, modify at 1. cbv beta iota zeta.
  rewrite bind_eq. unfold get_ctx at 1. wsimpl. rewrite Hp. cbv beta iota zeta.
  unfold put_ctx, modify. wsimpl.
  rewrite !insert_insert_eq.
  rewrite bind_eq. wsimpl. rewrite <- app_assoc. reflexivity.
Qed.

(** The sub context is created without listeners, so the synchronous
    updates of [onSubscribe] during its creation notify nobody. *)
Lemma init_create_silent p k ctx v (w : @World V IV) :
  regs w !! p = Some ctx -> subContexts ctx !! k = None ->
  initialState (cfg k) (initialValues ctx) (isHydrated ctx) = Some v ->
  initializeSubContext has_window cfg p k w =
  ({| regs := <[p:=with_subContexts ctx (<[k:=next_eid w]> (subContexts ctx))]>
                (regs w);
      heap := <[next_eid w:={| value := after_onSubscribe has_window cfg k v;
                               initialized := true; listeners := [];
                               cleanup := onSubscribe_cleanup has_window cfg k v;
                               owner := p; stateKey := k |}]> (heap w);
      next_eid := S (next_eid w); locals := locals w; handles := handles w;
      trace := trace w ++ EvInitialState p k (isHydrated ctx)
                 :: onSubscribe_calls has_window cfg p k (next_eid w) v |},
   Some (next_eid w)).
Proof.
  intros Hp Hk Hi. unfold initializeSubContext. rewrite bind_eq.
  unfold get_ctx at 1. rewrite Hp. rewrite Hk. rewrite bind_eq.
  unfold emit at 1, modify at 1. rewrite bind_eq. rewrite Hi. unfold lift, mret, M_ret.
  rewrite bind_eq. unfold alloc at 1.
  set (sc0 := {| value := v; initialized := true; listeners := []; cleanup := None;
                 owner := p; stateKey := k |}).
  rewrite bind_eq.
  set (w2 := set_next _ _).
  pose proof (call_onSubscribe_silent p k
                (next_eid (add_event (EvInitialState p k (isHydrated ctx)) w)) sc0 w2
                (lookup_insert_eq _ _ _) eq_refl) as Heq.
  cbn [value sc0] in Heq. rewrite Heq. clear Heq.
  subst w2. wsimpl.
  rewrite bind_eq. unfold load at 1. wsimpl. rewrite lookup_insert_eq.
  cbv beta iota zeta.
  rewrite bind_eq. unfold store at 1, modify at 1. cbv beta iota zeta.
  rewrite bind_eq. unfold get_ctx at 1. wsimpl. rewrite Hp. cbv beta iota zeta.
  unfold put_ctx, modify. wsimpl.
  rewrite !insert_insert_eq.
  rewrite bind_eq. wsimpl. rewrite <- app_assoc. reflexivity.
Qed.

Lemma init_found p k ctx e (sc : @SubContext V) (w : @World V IV) :
  regs w !! p = Some ctx -> subContexts ctx !! k = Some e ->
  heap w !! e = Some sc -> initialized sc = true ->
  initializeSubContext has_window cfg p k w = (w, Some e).
Proof.
  intros Hp Hk He Hi. unfold initializeSubContext. rewrite bind_eq.
  unfold get_ctx at 1. rewrite Hp. rewrite Hk. rewrite bind_eq.
  unfold load at 1. rewrite He. rewrite Hi. reflexivity.
Qed.

Lemma init_dangling p k ctx e (w : @World V IV) :
  regs w !! p = Some ctx -> subContexts ctx !! k = Some e ->
  heap w !! e = None ->
  initializeSubContext has_window cfg p k w = (w, None).
Proof.
  intros Hp Hk He. unfold initializeSubContext. rewrite bind_eq.
  unfold get_ctx at 1. rewrite Hp. rewrite Hk. rewrite bind_eq.
  unfold load at 1. rewrite He. reflexivity.
Qed.

Lemma init_reinit p k ctx e (sc : @SubContext V) (w : @World V IV) :
  regs w !! p = Some ctx -> subContexts ctx !! k = Some e ->
  heap w !! e = Some sc -> initialized sc = false ->
  exists loc evs,
    initializeSubContext has_window cfg p k w =
    ({| regs := regs w;
        heap := <[e:=with_initialized
                       (with_cleanup
                          (with_value sc (after_onSubscribe has_window cfg k (value sc)))
                          (onSubscribe_cleanup has_window cfg k (value sc))) true]>
                  (heap w);
        next_eid := next_eid w; locals := loc; handles := handles w;
        trace := trace w ++ onSubscribe_calls has_window cfg p k e (value sc) ++ evs |},
     Some e) /\
    Forall (fun ev => is_notify ev = true) evs.
Proof.
  intros Hp Hk He Hi. unfold initializeSubContext. rewrite bind_eq.
  unfold get_ctx at 1. rewrite Hp. rewrite Hk. rewrite bind_eq.
  unfold load at 1. rewrite He. rewrite Hi. rewrite bind_eq.
  destruct (call_onSubscribe_spec p k e sc w He) as (loc & evs & Heq & Hevs).
  rewrite Heq. clear Heq. exists loc, evs. split; [|done].
  rewrite bind_eq. unfold load at 1. wsimpl. rewrite lookup_insert_eq.
  cbv beta iota zeta.
  rewrite bind_eq. unfold store at 1, modify at 1. cbv beta iota zeta.
  rewrite bind_eq. unfold load at 1. wsimpl. rewrite lookup_insert_eq.
  cbv beta iota zeta.
  rewrite bind_eq. unfold store at 1, modify at 1. cbv beta iota zeta.
  wsimpl. rewrite !insert_insert_eq. reflexivity.
Qed.

Ltac init_cases p k w :=
  destruct (regs w !! p) as [ctx|] eqn:Hp;
  [ destruct (subContexts ctx !! k) as [e|] eqn:Hk;
    [ destruct (heap w !! e) as [sc|] eqn:He;
      [ destruct (initialized sc) eqn:Hi;
        [ rewrite (init_found p k ctx e sc w Hp Hk He Hi)
        | destruct (init_reinit p k ctx e sc w Hp Hk He Hi)
            as (loc & evs & Heq & Hevs); rewrite Heq ]
      | rewrite (init_dangling p k ctx e w Hp Hk He) ]
    | destruct (initialState (cfg k) (initialValues ctx) (isHydrated ctx))
        as [v|] eqn:Hv;
      [ destruct (init_create p k ctx v w Hp Hk Hv)
          as (loc & evs & Heq & Hevs); rewrite Heq
      | rewrite (init_throws p k ctx w Hp Hk Hv) ] ]
  | rewrite (init_no_provider p k w Hp) ].

Lemma unsub_dangling e l (w : @World V IV) :
  heap w !! e = None -> unsubscribe cfg e l w = (w, None).
Proof.
  intros He. unfold unsubscribe. rewrite bind_eq. unfold load at 1.
  rewrite He. reflexivity.
Qed.

Lemma unsub_rest e l l0 ls (sc : @SubContext V) (w : @World V IV) :
  heap w !! e = Some sc -> set_delete l (listeners sc) = l0 :: ls ->
  unsubscribe cfg e l w =
  (set_heap (<[e:=with_listeners sc (l0 :: ls)]> (heap w)) w, Some tt).
Proof.
  intros He Hl. unfold unsubscribe. rewrite bind_eq. unfold load at 1.
  rewrite He. cbv beta iota zeta. rewrite Hl. reflexivity.
Qed.

(** The world right after the subscriber count of [e] dropped to zero. *)
Lemma unsub_last e l (sc : @SubContext V) (w : @World V IV) :
  heap w !! e = Some sc -> set_delete l (listeners sc) = [] ->
  let w1 := {| regs := regs w;
               heap := <[e:=with_initialized (with_listeners sc []) false]> (heap w);
               next_eid := next_eid w; locals := locals w; handles := handles w;
               trace := trace w ++ [EvLastUnsubscribe e] |} in
  let fin := fun w2 : @World V IV =>
    match cleanup sc with
    | Some c => (add_event (EvCleanup (stateKey sc) c) w2, Some tt)
    | None => (w2, Some tt)
    end in
  unsubscribe cfg e l w =
  match persistState (cfg (stateKey sc)) with
  | Some false =>
      match regs w !! owner sc with
      | Some ctx =>
          fin (set_regs (<[owner sc:=with_subContexts ctx
                                       (delete (stateKey sc) (subContexts ctx))]>
                           (regs w)) w1)
      | None => (w1, None)
      end
  | _ => fin w1
  end.
Proof.
  intros He Hl w1 fin. unfold unsubscribe. rewrite bind_eq. unfold load at 1.
  rewrite He. cbv beta iota zeta. rewrite Hl.
  rewrite bind_eq. unfold store at 1, modify at 1. cbv beta iota zeta.
  rewrite bind_eq. unfold load at 1. wsimpl. rewrite lookup_insert_eq.
  cbv beta iota zeta.
  rewrite bind_eq. unfold store at 1, modify at 1. cbv beta iota zeta.
  rewrite bind_eq. unfold emit at 1, modify at 1. cbv beta iota zeta.
  destruct (persistState (cfg (stateKey sc))) as [[|]|].
  - rewrite bind_eq. unfold mret, M_ret. cbv beta iota zeta.
    rewrite bind_eq. unfold load at 1. wsimpl. rewrite lookup_insert_eq.
    cbv beta iota zeta. subst fin w1. rewrite insert_insert_eq. wsimpl.
    destruct (cleanup sc); reflexivity.
  - rewrite bind_eq. rewrite bind_eq. unfold get_ctx at 1. wsimpl.
    destruct (regs w !! owner sc) as [ctx|].
    + cbv beta iota zeta. unfold put_ctx, modify. rewrite bind_eq.
      unfold load at 1. wsimpl. rewrite lookup_insert_eq. cbv beta iota zeta.
      subst fin w1. rewrite insert_insert_eq. wsimpl. destruct (cleanup sc); reflexivity.
    + subst w1. rewrite insert_insert_eq. reflexivity.
  - rewrite bind_eq. unfold mret, M_ret. cbv beta iota zeta.
    rewrite bind_eq. unfold load at 1. wsimpl. rewrite lookup_insert_eq.
    cbv beta iota zeta. subst fin w1. rewrite insert_insert_eq. wsimpl.
    destruct (cleanup sc); reflexivity.
Qed.

Lemma forEach_onHydrate_spec es (w : @World V IV) :
  exists evs,
    (forEach_onHydrate has_window cfg es w).1 =
    {| regs := regs w; heap := heap w; next_eid := next_eid w;
       locals := locals w; handles := handles w; trace := trace w ++ evs |} /\
    Forall (fun ev => is_onHydrate ev = true) evs /\
    (has_window = false -> evs = []).
Proof.
  revert w; induction es as [|[k e] es IH]; intros w; simpl.
  - exists []. rewrite app_nil_r. destruct w; auto.
  - rewrite bind_eq. unfold load at 1.
    destruct (heap w !! e) as [sc|] eqn:He.
    + cbv beta iota zeta. rewrite bind_eq.
      destruct (effective_onHydrate has_window cfg (stateKey sc)) eqn:Ho.
      * unfold emit, modify. cbv beta iota zeta.
        destruct (IH (add_event (EvOnHydrate (stateKey sc)) w))
          as (evs & Heq & Hf & Hs).
        rewrite Heq. exists (EvOnHydrate (stateKey sc) :: evs). wsimpl.
        rewrite <- app_assoc. repeat split; [by constructor|].
        intros Hw. unfold effective_onHydrate in Ho. rewrite Hw in Ho. done.
      * unfold mret, M_ret. cbv beta iota zeta.
        destruct (IH w) as (evs & Heq & Hf & Hs).
        rewrite Heq. exists evs. auto.
    + exists []. rewrite app_nil_r. destruct w; auto.
Qed.

Lemma subscribe_spec e l (sc : @SubContext V) (w : @World V IV) :
  heap w !! e = Some sc ->
  subscribe e l w =
  (set_heap (<[e:=with_listeners sc (set_add l (listeners sc))]> (heap w)) w,
   Some (e, l)).
Proof.
  intros He. unfold subscribe. rewrite bind_eq. unfold load at 1. rewrite He.
  reflexivity.
Qed.

Lemma subscribe_dangling e l (w : @World V IV) :
  heap w !! e = None -> subscribe e l w = (w, None).
Proof.
  intros He. unfold subscribe. rewrite bind_eq. unfold load at 1. rewrite He.
  reflexivity.
Qed.

Lemma preserves_bind (I : @World V IV -> Prop) {A B} (m : M A) (f : A -> M B) :
  preserves I m -> (forall a, preserves I (f a)) -> preserves I (m ≫= f).
Proof.
  intros Hm Hf w Hw. rewrite bind_eq. specialize (Hm w Hw).
  destruct (m w) as [w' [a|]]; simpl in *; auto. apply Hf; auto.
Qed.

Lemma preserves_pure (I : @World V IV -> Prop) {A} (m : M A) :
  (forall w, (m w).1 = w) -> preserves I m.
Proof. intros Hm w Hw. rewrite Hm. exact Hw. Qed.

Section Schema.
(** An invariant kept by the library's pieces is kept by every operation on
    an allowed configuration. *)
Variable I : @World V IV -> Prop.
Variable key_ok : nat -> Prop.
Hypothesis H_init : forall p k, key_ok k ->
  preserves I (initializeSubContext has_window cfg p k).
Hypothesis H_update : forall e ns, preserves I (updateState e ns).
Hypothesis H_subscribe : forall e l, preserves I (subscribe e l).
Hypothesis H_unsubscribe : forall e l, preserves I (unsubscribe cfg e l).
Hypothesis H_local : forall w c v, I w -> I (set_locals (<[c:=v]> (locals w)) w).
Hypothesis H_handles : forall w hs, I w -> I (set_handles hs w).
Hypothesis H_mount : forall w p iv, I w -> regs w !! p = None ->
  I (set_regs (<[p:={| initialValues := iv; subContexts := ∅;
                       isHydrated := false |}]> (regs w)) w).
Hypothesis H_hydrate : forall w p ctx, I w -> regs w !! p = Some ctx ->
  I (forEach_onHydrate has_window cfg (map_to_list (subContexts ctx))
       (set_regs (<[p:=with_hydrated ctx true]> (regs w)) w)).1.

Lemma exec_preserves o :
  (forall k, op_key o = Some k -> key_ok k) ->
  preserves I (exec has_window cfg o).
Proof.
  intros Hk. destruct o as [p iv|p|p k c|p k c h|p k n h|p k ns|h]; simpl.
  - intros w Hw. rewrite bind_eq. simpl.
    destruct (regs w !! p) eqn:Hp; simpl; auto.
  - intros w Hw. rewrite bind_eq. unfold get_ctx at 1.
    destruct (regs w !! p) as [ctx|] eqn:Hp; simpl; auto.
    rewrite bind_eq. simpl. rewrite bind_eq. unfold get_ctx. simpl.
    rewrite lookup_insert_eq. simpl. apply H_hydrate; auto.
  - apply preserves_bind; [by apply H_init, Hk|]. intros e.
    apply preserves_bind; [by apply preserves_pure; intros w; unfold load;
                              destruct (heap w !! e)|].
    intros sc w Hw. apply H_local; auto.
  - apply preserves_bind; [by apply H_init, Hk|]. intros e.
    apply preserves_bind; [apply H_subscribe|]. intros r w Hw. apply H_handles; auto.
  - apply preserves_bind; [by apply H_init, Hk|]. intros e.
    apply preserves_bind; [apply H_subscribe|]. intros r w Hw. apply H_handles; auto.
  - apply preserves_bind; [by apply H_init, Hk|]. intros e. apply H_update.
  - intros w Hw. rewrite bind_eq. simpl.
    destruct (handles w !! h) as [[e l]|]; simpl; auto.
    rewrite bind_eq. simpl. apply H_unsubscribe. apply H_handles; auto.
Qed.

Lemma run_preserves os w :
  (forall o k, o ∈ os -> op_key o = Some k -> key_ok k) ->
  I w -> I (run has_window cfg os w).
Proof.
  revert w; induction os as [|o os IH]; intros w Hok Hw; simpl; auto.
  apply IH.
  - intros o' k Hin. apply Hok. by right.
  - apply exec_preserves; auto. intros k. apply Hok. by left.
Qed.
End Schema.

Lemma notify_not_client (evs : list (@Event V)) :
  Forall (fun ev => is_notify ev = true) evs ->
  Forall (fun ev => client_only_event ev = false) evs.
Proof. intros H. eapply Forall_impl; [exact H|]. intros []; simpl; congruence. Qed.

Lemma notify_map_not_client ls (v : V) :
  Forall (fun ev => client_only_event ev = false) (map (fun l => EvNotify l v) ls).
Proof. apply Forall_forall. intros ev Hin. apply list_elem_of_In, in_map_iff in Hin.
  destruct Hin as (l & <- & _). reflexivity. Qed.

Section Server.
Hypothesis Hwin : has_window = false.

Lemma ssr_calls p k e (v : V) : onSubscribe_calls has_window cfg p k e v = [].
Proof. unfold onSubscribe_calls, effective_onSubscribe. by rewrite Hwin. Qed.

Lemma ssr_cleanup k (v : V) : onSubscribe_cleanup has_window cfg k v = None.
Proof. unfold onSubscribe_cleanup, effective_onSubscribe. by rewrite Hwin. Qed.

Lemma ssr_init p k : preserves (@ssr_inv V IV) (initializeSubContext has_window cfg p k).
Proof.
  intros w [Ht Hc]. init_cases p k w; cbn [fst]; try done.
  - rewrite ssr_calls, ssr_cleanup. split; wsimpl.
    + apply Forall_app. by split; [|apply notify_not_client].
    + intros e' sc'. rewrite lookup_insert.
      case_decide; [intros [= <-]; reflexivity|apply Hc].
  - rewrite ssr_calls, ssr_cleanup. split; wsimpl.
    + apply Forall_app. split; [done|]. constructor; [done|].
      by apply notify_not_client.
    + intros e' sc'. rewrite lookup_insert.
      case_decide; [intros [= <-]; reflexivity|apply Hc].
  - split; [|exact Hc]. apply Forall_app. by split; [|constructor].
Qed.

Lemma ssr_update e ns : preserves (@ssr_inv V IV) (updateState e ns).
Proof.
  intros w [Ht Hc]. destruct (heap w !! e) as [sc|] eqn:He.
  - rewrite (updateState_spec e ns sc w He). cbn [fst]. split; wsimpl.
    + apply Forall_app. split; [done|apply notify_map_not_client].
    + intros e' sc'. rewrite lookup_insert.
      case_decide; [intros [= <-]; simpl; by apply (Hc e)|apply Hc].
  - rewrite updateState_dangling by done. by split.
Qed.

Lemma ssr_subscribe e l : preserves (@ssr_inv V IV) (subscribe e l).
Proof.
  intros w [Ht Hc]. destruct (heap w !! e) as [sc|] eqn:He.
  - rewrite (subscribe_spec e l sc w He). cbn [fst]. split; [done|]. wsimpl.
    intros e' sc'. rewrite lookup_insert.
    case_decide; [intros [= <-]; simpl; by apply (Hc e)|apply Hc].
  - rewrite subscribe_dangling by done. by split.
Qed.

Lemma ssr_unsubscribe e l : preserves (@ssr_inv V IV) (unsubscribe cfg e l).
Proof.
  intros w [Ht Hc]. destruct (heap w !! e) as [sc|] eqn:He.
  2:{ rewrite unsub_dangling by done. by split. }
  assert (Hcl : cleanup sc = None) by (by apply (Hc e)).
  destruct (set_delete l (listeners sc)) as [|l0 ls] eqn:Hl.
  - rewrite (unsub_last e l sc w He Hl). rewrite Hcl.
    assert (Hinv : forall r, ssr_inv
      (set_regs r {| regs := regs w;
         heap := <[e:=with_initialized (with_listeners sc []) false]> (heap w);
         next_eid := next_eid w; locals := locals w; handles := handles w;
         trace := trace w ++ [EvLastUnsubscribe e] |})).
    { intros r. split; wsimpl.
      - apply Forall_app. by split; [|constructor].
      - intros e' sc'. rewrite lookup_insert.
        case_decide; [intros [= <-]; exact Hcl|apply Hc]. }
    destruct (persistState (cfg (stateKey sc))) as [[|]|];
      [| destruct (regs w !! owner sc) |]; cbn [fst];
      try apply Hinv; apply (Hinv (regs w)).
  - rewrite (unsub_rest e l l0 ls sc w He Hl). cbn [fst]. split; [done|]. wsimpl.
    intros e' sc'. rewrite lookup_insert.
    case_decide; [intros [= <-]; exact Hcl|apply Hc].
Qed.

Lemma ssr_exec o : preserves (@ssr_inv V IV) (exec has_window cfg o).
Proof.
  apply (exec_preserves (@ssr_inv V IV) (fun _ => True)); auto.
  - intros p k _. apply ssr_init.
  - apply ssr_update.
  - apply ssr_subscribe.
  - apply ssr_unsubscribe.
  - intros w p ctx [Ht Hc] Hp.
    destruct (forEach_onHydrate_spec (map_to_list (subContexts ctx))
                (set_regs (<[p:=with_hydrated ctx true]> (regs w)) w))
      as (evs & Heq & _ & Hs).
    rewrite Heq, (Hs Hwin), app_nil_r. by split.
Qed.
Lemma ssr_run os : @ssr_inv V IV (run has_window cfg os empty_world).
Proof.
  apply (run_preserves (@ssr_inv V IV) (fun _ => True)); auto.
  - intros p k _. apply ssr_init.
  - apply ssr_update.
  - apply ssr_subscribe.
  - apply ssr_unsubscribe.
  - intros w p ctx [Ht Hc] Hp.
    destruct (forEach_onHydrate_spec (map_to_list (subContexts ctx))
                (set_regs (<[p:=with_hydrated ctx true]> (regs w)) w))
      as (evs & Heq & _ & Hs).
    rewrite Heq, (Hs Hwin), app_nil_r. by split.
  - by split.
Qed.
End Server.

Lemma epoch_scan_app e (tr evs : list (@Event V)) :
  epoch_scan e (tr ++ evs) = foldl (epoch_step e) (epoch_scan e tr) evs.
Proof. unfold epoch_scan. apply foldl_app. Qed.

Lemma epoch_step_neutral e st (ev : @Event V) :
  epoch_neutral ev = true -> epoch_step e st ev = st.
Proof. destruct st, ev; simpl; congruence. Qed.

Lemma epoch_foldl_neutral e st (evs : list (@Event V)) :
  Forall (fun ev => epoch_neutral ev = true) evs ->
  foldl (epoch_step e) st evs = st.
Proof.
  intros H. revert st; induction H as [|ev evs Hev _ IH]; intros st; simpl; auto.
  rewrite epoch_step_neutral by done. apply IH.
Qed.

Lemma notify_neutral (evs : list (@Event V)) :
  Forall (fun ev => is_notify ev = true) evs ->
  Forall (fun ev => epoch_neutral ev = true) evs.
Proof. intros H. eapply Forall_impl; [exact H|]. intros []; simpl; congruence. Qed.

Lemma notify_map_neutral ls (v : V) :
  Forall (fun ev => epoch_neutral ev = true) (map (fun l => EvNotify l v) ls).
Proof. apply Forall_forall. intros ev Hin. apply list_elem_of_In, in_map_iff in Hin.
  destruct Hin as (l & <- & _). reflexivity. Qed.

(** Neutral events on an unchanged heap keep the invariant. *)
Lemma epoch_inv_extend (w w' : @World V IV) evs :
  epoch_inv w -> next_eid w' = next_eid w -> heap w' = heap w ->
  trace w' = trace w ++ evs ->
  Forall (fun ev => epoch_neutral ev = true) evs -> epoch_inv w'.
Proof.
  intros [Hf Hs] Hn Hh Ht Hevs. split.
  - intros e. rewrite Hn, Hh. apply Hf.
  - intros e. destruct (Hs e) as (a & Ha & H1 & H2). exists a.
    rewrite Ht, epoch_scan_app, Ha, epoch_foldl_neutral by done.
    rewrite Hh. auto.
Qed.

(** So does rewriting one entry without touching its [initialized] flag. *)
Lemma epoch_inv_touch (w w' : @World V IV) e sc sc' evs :
  epoch_inv w -> heap w !! e = Some sc -> initialized sc' = initialized sc ->
  next_eid w' = next_eid w -> heap w' = <[e:=sc']> (heap w) ->
  trace w' = trace w ++ evs ->
  Forall (fun ev => epoch_neutral ev = true) evs -> epoch_inv w'.
Proof.
  intros [Hf Hs] He Hi Hn Hh Ht Hevs. split.
  - intros e' Hle. rewrite Hh, lookup_insert. rewrite Hn in Hle.
    case_decide; [subst; rewrite Hf in He by done; discriminate|]. by apply Hf.
  - intros e'. destruct (Hs e') as (a & Ha & H1 & H2). exists a.
    rewrite Ht, epoch_scan_app, Ha, epoch_foldl_neutral by done.
    rewrite Hh, lookup_insert. case_decide; subst.
    + split; [done|]. split; [|done]. intros Ha0. destruct (H1 Ha0) as (sc0 & Hsc0 & Hi0).
      rewrite He in Hsc0. injection Hsc0 as <-. exists sc'. by rewrite Hi.
    + auto.
Qed.

Lemma epoch_init p k : preserves (@epoch_inv V IV) (initializeSubContext has_window cfg p k).
Proof.
  intros w Hw. pose proof Hw as [Hf Hs].
  init_cases p k w; cbn [fst]; try done.
  - (* a sub context whose epoch ended gets onSubscribe again *)
    split; wsimpl.
    + intros e' Hle. rewrite lookup_insert.
      case_decide; [subst; rewrite Hf in He by done; discriminate|]. by apply Hf.
    + intros e'. destruct (Hs e') as (a & Ha & H1 & H2).
      rewrite epoch_scan_app, foldl_app, Ha. rewrite lookup_insert.
      case_decide; subst.
      * assert (a = true) as ->.
        { destruct a; [done|]. destruct (H1 eq_refl) as (sc0 & Hsc0 & Hi0).
          congruence. }
        unfold onSubscribe_calls.
        destruct (effective_onSubscribe has_window cfg k); simpl;
          [rewrite decide_True by done|];
          rewrite epoch_foldl_neutral by (by apply notify_neutral);
          eexists; (split; [reflexivity|]); split; intros; try done;
          eexists; split; done.
      * unfold onSubscribe_calls.
        destruct (effective_onSubscribe has_window cfg k); simpl;
          [rewrite decide_False by done|];
          rewrite epoch_foldl_neutral by (by apply notify_neutral); eauto.
  - (* a new sub context *)
    split; wsimpl.
    + intros e' Hle. rewrite lookup_insert_ne by lia. apply Hf. lia.
    + intros e'. destruct (Hs e') as (a & Ha & H1 & H2).
      rewrite epoch_scan_app. simpl. rewrite foldl_app, Ha.
      rewrite lookup_insert. case_decide; subst.
      * rewrite H2 in Ha |- * by (apply Hf; lia).
        unfold onSubscribe_calls.
        destruct (effective_onSubscribe has_window cfg k); simpl;
          [rewrite decide_True by done|];
          rewrite epoch_foldl_neutral by (by apply notify_neutral);
          eexists; (split; [reflexivity|]); split; intros; try done;
          eexists; split; done.
      * unfold onSubscribe_calls.
        destruct (effective_onSubscribe has_window cfg k); simpl;
          [rewrite decide_False by done|];
          rewrite epoch_foldl_neutral by (by apply notify_neutral); eauto.
  - by apply (epoch_inv_extend w _ [EvInitialState p k (isHydrated ctx)]); auto.
Qed.

(** Dropping the last subscriber re-arms the entry. *)
Lemma epoch_inv_close (w w' : @World V IV) e sc sc' evs :
  epoch_inv w -> heap w !! e = Some sc -> initialized sc' = false ->
  next_eid w' = next_eid w -> heap w' = <[e:=sc']> (heap w) ->
  trace w' = trace w ++ EvLastUnsubscribe e :: evs ->
  Forall (fun ev => epoch_neutral ev = true) evs -> epoch_inv w'.
Proof.
  intros [Hf Hs] He Hi Hn Hh Ht Hevs. split.
  - intros e' Hle. rewrite Hh, lookup_insert. rewrite Hn in Hle.
    case_decide; [subst; rewrite Hf in He by done; discriminate|]. by apply Hf.
  - intros e'. destruct (Hs e') as (a & Ha & H1 & H2).
    rewrite Ht, epoch_scan_app, Ha. cbn [foldl].
    rewrite Hh, lookup_insert. case_decide as Hee; subst.
    + replace (epoch_step e' (Some a) (EvLastUnsubscribe e'))
        with (Some true) by (simpl; by rewrite decide_True).
      rewrite epoch_foldl_neutral by done.
      exists true. split; [done|]. split; done.
    + replace (epoch_step e' (Some a) (EvLastUnsubscribe e))
        with (Some a) by (simpl; by rewrite decide_False).
      rewrite epoch_foldl_neutral by done. exists a. auto.
Qed.

Lemma epoch_update e ns : preserves (@epoch_inv V IV) (updateState e ns).
Proof.
  intros w Hw. destruct (heap w !! e) as [sc|] eqn:He.
  - rewrite (updateState_spec e ns sc w He). cbn [fst].
    eapply (epoch_inv_touch w _ e sc);
      [exact Hw|exact He| |reflexivity|reflexivity|reflexivity|];
      [reflexivity|apply notify_map_neutral].
  - by rewrite updateState_dangling.
Qed.

Lemma epoch_subscribe e l : preserves (@epoch_inv V IV) (subscribe e l).
Proof.
  intros w Hw. destruct (heap w !! e) as [sc|] eqn:He.
  - rewrite (subscribe_spec e l sc w He). cbn [fst].
    eapply (epoch_inv_touch w _ e sc _ []);
      [exact Hw|exact He| |reflexivity|reflexivity| |constructor];
      [reflexivity|by rewrite app_nil_r].
  - by rewrite subscribe_dangling.
Qed.

Lemma epoch_unsubscribe e l : preserves (@epoch_inv V IV) (unsubscribe cfg e l).
Proof.
  intros w Hw. destruct (heap w !! e) as [sc|] eqn:He.
  2:{ by rewrite unsub_dangling. }
  destruct (set_delete l (listeners sc)) as [|l0 ls] eqn:Hl.
  - rewrite (unsub_last e l sc w He Hl).
    destruct (persistState (cfg (stateKey sc))) as [[|]|];
      [| destruct (regs w !! owner sc) |];
      destruct (cleanup sc) eqn:Hc; cbn [fst];
      lazymatch goal with
      | |- epoch_inv (add_event ?ev _) =>
          apply (epoch_inv_close w _ e sc (with_initialized (with_listeners sc []) false)
                   [ev])
      | _ => apply (epoch_inv_close w _ e sc (with_initialized (with_listeners sc []) false)
                   [])
      end;
      try exact Hw; try exact He; wsimpl;
      try by repeat constructor; by rewrite <- app_assoc.
  - rewrite (unsub_rest e l l0 ls sc w He Hl). cbn [fst].
    eapply (epoch_inv_touch w _ e sc _ []);
      [exact Hw|exact He| |reflexivity|reflexivity| |constructor];
      [reflexivity|by rewrite app_nil_r].
Qed.

Lemma epoch_exec o : preserves (@epoch_inv V IV) (exec has_window cfg o).
Proof.
  apply (exec_preserves (@epoch_inv V IV) (fun _ => True)).
  - intros p k _. apply epoch_init.
  - apply epoch_update.
  - apply epoch_subscribe.
  - apply epoch_unsubscribe.
  - intros w c v Hw. by apply (epoch_inv_extend w _ []); rewrite ?app_nil_r.
  - intros w hs Hw. by apply (epoch_inv_extend w _ []); rewrite ?app_nil_r.
  - intros w p iv Hw _. by apply (epoch_inv_extend w _ []); rewrite ?app_nil_r.
  - intros w p ctx Hw Hp.
    destruct (forEach_onHydrate_spec (map_to_list (subContexts ctx))
                (set_regs (<[p:=with_hydrated ctx true]> (regs w)) w))
      as (evs & Heq & Hevs & _).
    rewrite Heq. apply (epoch_inv_extend w _ evs); auto.
    eapply Forall_impl; [exact Hevs|]. intros []; simpl; congruence.
  - done.
Qed.

Lemma epoch_run os : @epoch_inv V IV (run has_window cfg os empty_world).
Proof.
  apply (run_preserves (@epoch_inv V IV) (fun _ => True)).
  - intros p k _. apply epoch_init.
  - apply epoch_update.
  - apply epoch_subscribe.
  - apply epoch_unsubscribe.
  - intros w c v Hw. by apply (epoch_inv_extend w _ []); rewrite ?app_nil_r.
  - intros w hs Hw. by apply (epoch_inv_extend w _ []); rewrite ?app_nil_r.
  - intros w p iv Hw _. by apply (epoch_inv_extend w _ []); rewrite ?app_nil_r.
  - intros w p ctx Hw Hp.
    destruct (forEach_onHydrate_spec (map_to_list (subContexts ctx))
                (set_regs (<[p:=with_hydrated ctx true]> (regs w)) w))
      as (evs & Heq & Hevs & _).
    rewrite Heq. apply (epoch_inv_extend w _ evs); auto.
    eapply Forall_impl; [exact Hevs|]. intros []; simpl; congruence.
  - done.
  - split; [intros; done|]. intros e. exists true. split; [done|]. split; done.
Qed.

(** ** Well-formedness of the registries *)

Lemma wf_shrink (w w' : @World V IV) :
  wf w -> heap w' = heap w -> next_eid w' = next_eid w ->
  (forall q ctx' k e', regs w' !! q = Some ctx' -> subContexts ctx' !! k = Some e' ->
     exists ctx, regs w !! q = Some ctx /\ subContexts ctx !! k = Some e') ->
  wf w'.
Proof.
  intros [Hr Hf] Hh Hn Hsub. split.
  - intros q ctx' k e' Hq Hk. destruct (Hsub q ctx' k e' Hq Hk) as (ctx & Hq0 & Hk0).
    rewrite Hh. eapply Hr; eauto.
  - intros e. rewrite Hh, Hn. apply Hf.
Qed.

Lemma wf_shrink_touch (w w' : @World V IV) e (sc sc' : @SubContext V) :
  wf w -> heap w !! e = Some sc -> owner sc' = owner sc -> stateKey sc' = stateKey sc ->
  heap w' = <[e:=sc']> (heap w) -> next_eid w' = next_eid w ->
  (forall q ctx' k e', regs w' !! q = Some ctx' -> subContexts ctx' !! k = Some e' ->
     exists ctx, regs w !! q = Some ctx /\ subContexts ctx !! k = Some e') ->
  wf w'.
Proof.
  intros [Hr Hf] He Ho Hs Hh Hn Hsub. split.
  - intros q ctx' k e' Hq Hk. destruct (Hsub q ctx' k e' Hq Hk) as (ctx & Hq0 & Hk0).
    destruct (Hr q ctx k e' Hq0 Hk0) as (sc0 & He0 & Ho0 & Hs0).
    rewrite Hh, lookup_insert. case_decide; subst.
    + rewrite He in He0. injection He0 as <-. exists sc'. by rewrite Ho, Hs.
    + eauto.
  - intros e' Hle. rewrite Hh, lookup_insert. rewrite Hn in Hle.
    case_decide; [subst; rewrite Hf in He by done; discriminate|]. by apply Hf.
Qed.

Lemma regs_same (w w' : @World V IV) :
  regs w' = regs w ->
  forall q ctx' k e', regs w' !! q = Some ctx' -> subContexts ctx' !! k = Some e' ->
    exists ctx, regs w !! q = Some ctx /\ subContexts ctx !! k = Some e'.
Proof. intros Hr q ctx' k e' Hq Hk. rewrite Hr in Hq. eauto. Qed.

Lemma wf_init p k : preserves (@wf V IV) (initializeSubContext has_window cfg p k).
Proof.
  intros w Hw. pose proof Hw as [Hr Hf].
  init_cases p k w; cbn [fst]; try done.
  - eapply (wf_shrink_touch w _ e sc); [exact Hw|exact He| | |reflexivity|reflexivity|];
      [reflexivity|reflexivity|by apply regs_same].
  - split; wsimpl.
    + intros q ctx' k' e' Hq Hk'. rewrite lookup_insert in Hq. case_decide; subst.
      * injection Hq as <-. cbn [subContexts with_subContexts] in Hk'.
        rewrite lookup_insert in Hk'. case_decide; subst.
        -- injection Hk' as <-. rewrite lookup_insert_eq. eexists; eauto.
        -- destruct (Hr q ctx k' e' Hp Hk') as (sc0 & He0 & Ho0 & Hs0).
           rewrite lookup_insert_ne; [eauto|]. intros <-. rewrite Hf in He0 by lia.
           discriminate.
      * destruct (Hr q ctx' k' e' Hq Hk') as (sc0 & He0 & Ho0 & Hs0).
        rewrite lookup_insert_ne; [eauto|]. intros <-. rewrite Hf in He0 by lia.
        discriminate.
    + intros e' Hle. rewrite lookup_insert_ne by lia. apply Hf. lia.
Qed.

Lemma wf_update e ns : preserves (@wf V IV) (updateState e ns).
Proof.
  intros w Hw. destruct (heap w !! e) as [sc|] eqn:He.
  - rewrite (updateState_spec e ns sc w He). cbn [fst].
    eapply (wf_shrink_touch w _ e sc); [exact Hw|exact He| | |reflexivity|reflexivity|];
      [reflexivity|reflexivity|by apply regs_same].
  - by rewrite updateState_dangling.
Qed.

Lemma wf_subscribe e l : preserves (@wf V IV) (subscribe e l).
Proof.
  intros w Hw. destruct (heap w !! e) as [sc|] eqn:He.
  - rewrite (subscribe_spec e l sc w He). cbn [fst].
    eapply (wf_shrink_touch w _ e sc); [exact Hw|exact He| | |reflexivity|reflexivity|];
      [reflexivity|reflexivity|by apply regs_same].
  - by rewrite subscribe_dangling.
Qed.

Lemma wf_unsubscribe e l : preserves (@wf V IV) (unsubscribe cfg e l).
Proof.
  intros w Hw. destruct (heap w !! e) as [sc|] eqn:He.
  2:{ by rewrite unsub_dangling. }
  destruct (set_delete l (listeners sc)) as [|l0 ls] eqn:Hl.
  - rewrite (unsub_last e l sc w He Hl).
    destruct (persistState (cfg (stateKey sc))) as [[|]|];
      [| destruct (regs w !! owner sc) as [ctx|] eqn:Ho |];
      destruct (cleanup sc) eqn:Hc; cbn [fst];
      (eapply (wf_shrink_touch w _ e sc (with_initialized (with_listeners sc []) false));
       [exact Hw|exact He|reflexivity|reflexivity|reflexivity|reflexivity|]);
      try (by apply regs_same).
    all: intros q ctx' k e' Hq Hk; cbn [regs set_regs add_event] in Hq;
      rewrite lookup_insert in Hq;
      case_decide; subst;
      [injection Hq as <-; cbn [subContexts with_subContexts] in Hk;
       apply lookup_delete_Some in Hk as [_ Hk]; eauto
      |eauto].
  - rewrite (unsub_rest e l l0 ls sc w He Hl). cbn [fst].
    eapply (wf_shrink_touch w _ e sc); [exact Hw|exact He| | |reflexivity|reflexivity|];
      [reflexivity|reflexivity|by apply regs_same].
Qed.

Lemma wf_local w c (v : V) : @wf V IV w -> wf (set_locals (<[c:=v]> (locals w)) w).
Proof. intros Hw. by apply (wf_shrink w); [| | |apply regs_same]. Qed.

Lemma wf_handles w hs : @wf V IV w -> wf (set_handles hs w).
Proof. intros Hw. by apply (wf_shrink w); [| | |apply regs_same]. Qed.

Lemma wf_mount w p (iv : IV) : @wf V IV w -> regs w !! p = None ->
  wf (set_regs (<[p:={| initialValues := iv; subContexts := ∅;
                        isHydrated := false |}]> (regs w)) w).
Proof.
  intros Hw _. apply (wf_shrink w); auto.
  intros q ctx' k e' Hq Hk. cbn [regs set_regs] in Hq. rewrite lookup_insert in Hq.
  case_decide; [injection Hq as <-; simpl in Hk; by rewrite lookup_empty in Hk|eauto].
Qed.

Lemma wf_hydrate w p ctx : @wf V IV w -> regs w !! p = Some ctx ->
  wf (forEach_onHydrate has_window cfg (map_to_list (subContexts ctx))
        (set_regs (<[p:=with_hydrated ctx true]> (regs w)) w)).1.
Proof.
  intros Hw Hp.
  destruct (forEach_onHydrate_spec (map_to_list (subContexts ctx))
              (set_regs (<[p:=with_hydrated ctx true]> (regs w)) w))
    as (evs & Heq & _ & _).
  rewrite Heq. apply (wf_shrink w); auto.
  intros q ctx' k e' Hq Hk. cbn [regs set_regs] in Hq. rewrite lookup_insert in Hq.
  case_decide; [subst; injection Hq as <-; cbn [subContexts with_hydrated] in Hk; eauto|eauto].
Qed.

Lemma wf_run os : @wf V IV (run has_window cfg os empty_world).
Proof.
  apply (run_preserves (@wf V IV) (fun _ => True)).
  - intros p k _. apply wf_init.
  - apply wf_update.
  - apply wf_subscribe.
  - apply wf_unsubscribe.
  - apply wf_local.
  - apply wf_handles.
  - apply wf_mount.
  - apply wf_hydrate.
  - done.
  - split; [|done]. intros q ctx k e Hq. unfold empty_world in Hq. cbn [regs] in Hq.
    by rewrite lookup_empty in Hq.
Qed.

(** ** Frames *)

Lemma entry_of_sub_at (w : @World V IV) p k :
  entry_of w p k = (sub_at w p k ≫= fun e => heap w !! e).
Proof. unfold entry_of, sub_at. by destruct (regs w !! p). Qed.

Lemma frame_refl p k (w : @World V IV) : frame_pk p k w w.
Proof. split; [|split]; auto. Qed.

Lemma frame_trans p k (w1 w2 w3 : @World V IV) :
  frame_pk p k w1 w2 -> frame_pk p k w2 w3 -> frame_pk p k w1 w3.
Proof.
  intros (A1 & B1 & C1) (A2 & B2 & C2). split; [|split].
  - intros q Hq. rewrite A2, A1; auto.
  - intros k' Hk. rewrite B2, B1; auto.
  - intros e sc He Hne. apply C2; auto.
Qed.

Lemma frame_same p k (w w' : @World V IV) :
  regs w' = regs w -> heap w' = heap w -> frame_pk p k w w'.
Proof.
  intros Hr Hh. split; [|split].
  - intros q _. by rewrite Hr.
  - intros k' _. unfold sub_at. by rewrite Hr.
  - intros e sc He _. by rewrite Hh.
Qed.

Lemma frame_touch p k (w w' : @World V IV) e sc sc' :
  heap w !! e = Some sc -> owner sc = p -> stateKey sc = k ->
  regs w' = regs w -> heap w' = <[e:=sc']> (heap w) -> frame_pk p k w w'.
Proof.
  intros He Ho Hs Hr Hh. split; [|split].
  - intros q _. by rewrite Hr.
  - intros k' _. unfold sub_at. by rewrite Hr.
  - intros e' sc0 He' Hne. rewrite Hh, lookup_insert_ne; auto.
    intros <-. rewrite He in He'. injection He' as <-. by destruct Hne.
Qed.

Lemma init_frame p k (w : @World V IV) :
  wf w ->
  frame_pk p k w (initializeSubContext has_window cfg p k w).1 /\
  (forall e, (initializeSubContext has_window cfg p k w).2 = Some e ->
     exists sc, heap (initializeSubContext has_window cfg p k w).1 !! e = Some sc /\
                owner sc = p /\ stateKey sc = k).
Proof.
  intros Hw. pose proof Hw as [Hr Hf].
  init_cases p k w; cbn [fst snd].
  - split; [apply frame_refl|]. intros e' [= <-]. eapply Hr; eauto.
  - destruct (Hr p ctx k e Hp Hk) as (sc0 & He0 & Ho & Hs).
    rewrite He in He0. injection He0 as <-.
    split; [eapply (frame_touch p k w _ e sc); eauto; reflexivity|].
    intros e' [= <-]. wsimpl. rewrite lookup_insert_eq. eexists; eauto.
  - split; [apply frame_refl|done].
  - split; [split; [|split]|].
    + intros q Hq. wsimpl. by rewrite lookup_insert_ne by done.
    + intros k' Hk'. unfold sub_at. wsimpl. rewrite lookup_insert_eq, Hp. simpl.
      by rewrite lookup_insert_ne by done.
    + intros e' sc' He' _. wsimpl. rewrite lookup_insert_ne; [done|].
      intros Hne. rewrite Hf in He' by lia. discriminate.
    + intros e' [= <-]. wsimpl. rewrite lookup_insert_eq. eexists; eauto.
  - split; [by apply frame_same|done].
  - split; [apply frame_refl|done].
Qed.

Lemma frame_bind_init {A} p k (f : nat -> M A) (w : @World V IV) :
  (forall e (w1 : @World V IV) sc, heap w1 !! e = Some sc -> owner sc = p ->
     stateKey sc = k -> frame_pk p k w1 (f e w1).1) ->
  wf w -> frame_pk p k w ((initializeSubContext has_window cfg p k ≫= f) w).1.
Proof.
  intros Hf Hw. destruct (init_frame p k w Hw) as [Hfr He].
  rewrite bind_eq. destruct (initializeSubContext has_window cfg p k w) as [w1 [e|]].
  - destruct (He e eq_refl) as (sc & Hsc & Ho & Hs). cbn [fst] in *.
    eapply frame_trans; [exact Hfr|]. eapply Hf; eauto.
  - exact Hfr.
Qed.

Lemma exec_frame o p k (w : @World V IV) :
  wf w -> op_provider o = Some p -> (forall k', op_key o = Some k' -> k' = k) ->
  frame_pk p k w (exec has_window cfg o w).1.
Proof.
  intros Hw Hp Hk.
  destruct o as [p0 iv|p0|p0 k0 c|p0 k0 c h|p0 k0 n h|p0 k0 ns|h];
    simpl in Hp; try discriminate; injection Hp as ->;
    try (assert (k0 = k) as -> by (apply Hk; reflexivity)); cbn [exec].
  - rewrite bind_eq. cbn. destruct (regs w !! p) eqn:Hp; [apply frame_refl|].
    unfold put_ctx, modify. split; [|split]; wsimpl.
    + intros q Hq. by rewrite lookup_insert_ne by done.
    + intros k' _. unfold sub_at. wsimpl. rewrite lookup_insert_eq, Hp. simpl.
      by rewrite lookup_empty.
    + auto.
  - rewrite bind_eq. unfold get_ctx at 1.
    destruct (regs w !! p) as [ctx|] eqn:Hp; [|apply frame_refl].
    rewrite bind_eq. cbn. rewrite bind_eq. unfold get_ctx. cbn.
    rewrite lookup_insert_eq. cbn.
    destruct (forEach_onHydrate_spec (map_to_list (subContexts ctx))
                (set_regs (<[p:=with_hydrated ctx true]> (regs w)) w))
      as (evs & Heq & _ & _).
    rewrite Heq. split; [|split]; wsimpl.
    + intros q Hq. by rewrite lookup_insert_ne by done.
    + intros k' _. unfold sub_at. wsimpl. rewrite lookup_insert_eq, Hp. done.
    + auto.
  - apply frame_bind_init; auto. intros e w1 sc He Ho Hs.
    rewrite bind_eq. unfold load at 1. rewrite He. by apply frame_same.
  - apply frame_bind_init; auto. intros e w1 sc He Ho Hs.
    rewrite bind_eq, (subscribe_spec e _ sc w1 He). cbn.
    eapply (frame_touch p k w1 _ e sc); eauto; reflexivity.
  - apply frame_bind_init; auto. intros e w1 sc He Ho Hs.
    rewrite bind_eq, (subscribe_spec e _ sc w1 He). cbn.
    eapply (frame_touch p k w1 _ e sc); eauto; reflexivity.
  - apply frame_bind_init; auto. intros e w1 sc He Ho Hs.
    rewrite (updateState_spec e ns sc w1 He). cbn [fst].
    eapply (frame_touch p k w1 _ e sc); eauto; reflexivity.
Qed.

(** Entries outside the moved configuration read the same. *)
Lemma frame_entry p k q k' (w w' : @World V IV) :
  wf w -> frame_pk p k w w' -> q <> p \/ k' <> k ->
  entry_of w' q k' = entry_of w q k'.
Proof.
  intros [Hr _] (A & B & C) Hne. rewrite !entry_of_sub_at.
  assert (Hs : sub_at w' q k' = sub_at w q k').
  { destruct Hne as [Hq|Hk].
    - unfold sub_at. by rewrite A.
    - destruct (decide (q = p)) as [->|Hq]; [by apply B|]. unfold sub_at. by rewrite A. }
  rewrite Hs. unfold sub_at. destruct (regs w !! q) as [ctx|] eqn:Hq; [|done].
  simpl. destruct (subContexts ctx !! k') as [e|] eqn:Hk; [|done]. simpl.
  destruct (Hr q ctx k' e Hq Hk) as (sc & He & Ho & Hsk).
  rewrite He. apply C; auto. destruct Hne; [left|right]; congruence.
Qed.

(** ** Configurations nobody accesses *)

Lemma untouched_same k (w w' : @World V IV) evs :
  untouched_inv k w -> regs w' = regs w -> trace w' = trace w ++ evs ->
  Forall (fun ev => is_initialState_of k ev = false) evs -> untouched_inv k w'.
Proof.
  intros [Ht Hr] Hrr Htt Hevs. split.
  - rewrite Htt. by apply Forall_app.
  - intros p ctx. rewrite Hrr. apply Hr.
Qed.

Lemma notify_not_init k (evs : list (@Event V)) :
  Forall (fun ev => is_notify ev = true) evs ->
  Forall (fun ev => is_initialState_of k ev = false) evs.
Proof. intros H. eapply Forall_impl; [exact H|]. intros []; simpl; congruence. Qed.

Lemma notify_map_not_init k ls (v : V) :
  Forall (fun ev => is_initialState_of k ev = false) (map (fun l => EvNotify l v) ls).
Proof. apply Forall_forall. intros ev Hin. apply list_elem_of_In, in_map_iff in Hin.
  destruct Hin as (l & <- & _). reflexivity. Qed.

Lemma calls_not_init k p k' e (v : V) :
  Forall (fun ev => is_initialState_of k ev = false) (onSubscribe_calls has_window cfg p k' e v).
Proof. unfold onSubscribe_calls. by destruct (effective_onSubscribe has_window cfg k'); repeat constructor. Qed.

Lemma untouched_init k p k' : k' <> k ->
  preserves (@untouched_inv V IV k) (initializeSubContext has_window cfg p k').
Proof.
  intros Hne w Hw. pose proof Hw as [Ht Hr].
  init_cases p k' w; cbn [fst]; try done.
  - apply (untouched_same k w _ (onSubscribe_calls has_window cfg p k' e (value sc) ++ evs));
      auto.
    apply Forall_app. split; [apply calls_not_init|by apply notify_not_init].
  - split; wsimpl.
    + apply Forall_app. split; [done|]. constructor.
      * simpl. by apply bool_decide_eq_false.
      * apply Forall_app. split; [apply calls_not_init|by apply notify_not_init].
    + intros q ctx'. rewrite lookup_insert. case_decide; subst.
      * intros [= <-]. wsimpl. rewrite lookup_insert_ne by done. by apply (Hr q).
      * apply Hr.
  - apply (untouched_same k w _ [EvInitialState p k' (isHydrated ctx)]); auto.
    constructor; [|done]. simpl. by apply bool_decide_eq_false.
Qed.

Lemma untouched_update k e ns : preserves (@untouched_inv V IV k) (updateState e ns).
Proof.
  intros w Hw. destruct (heap w !! e) as [sc|] eqn:He.
  - rewrite (updateState_spec e ns sc w He). cbn [fst].
    eapply untouched_same; [exact Hw|reflexivity|reflexivity|apply notify_map_not_init].
  - by rewrite updateState_dangling.
Qed.

Lemma untouched_subscribe k e l : preserves (@untouched_inv V IV k) (subscribe e l).
Proof.
  intros w Hw. destruct (heap w !! e) as [sc|] eqn:He.
  - rewrite (subscribe_spec e l sc w He). cbn [fst].
    apply (untouched_same k w _ []); auto. by rewrite app_nil_r.
  - by rewrite subscribe_dangling.
Qed.

Lemma untouched_unsubscribe k e l : preserves (@untouched_inv V IV k) (unsubscribe cfg e l).
Proof.
  intros w Hw. pose proof Hw as [Ht Hr]. destruct (heap w !! e) as [sc|] eqn:He.
  2:{ by rewrite unsub_dangling. }
  destruct (set_delete l (listeners sc)) as [|l0 ls] eqn:Hl.
  - rewrite (unsub_last e l sc w He Hl).
    destruct (persistState (cfg (stateKey sc))) as [[|]|];
      [| destruct (regs w !! owner sc) as [ctx|] eqn:Ho |];
      destruct (cleanup sc) eqn:Hc; cbn [fst]; split; wsimpl;
      rewrite ?Forall_app; try (split; [split|]; by repeat constructor);
      try (split; by repeat constructor); try exact Hr.
    all: intros q ctx'; rewrite lookup_insert; case_decide; subst;
      [intros [= <-]; wsimpl; rewrite lookup_delete; case_decide; [done|by apply (Hr (owner sc))]
      |apply Hr].
  - rewrite (unsub_rest e l l0 ls sc w He Hl). cbn [fst].
    apply (untouched_same k w _ []); auto. by rewrite app_nil_r.
Qed.

Lemma untouched_run k os :
  (forall o, o ∈ os -> op_key o <> Some k) ->
  @untouched_inv V IV k (run has_window cfg os empty_world).
Proof.
  intros Hos.
  apply (run_preserves (@untouched_inv V IV k) (fun k' => k' <> k)).
  - intros p k' Hk'. by apply untouched_init.
  - apply untouched_update.
  - apply untouched_subscribe.
  - apply untouched_unsubscribe.
  - intros w c v Hw. apply (untouched_same k w _ []); auto. by rewrite app_nil_r.
  - intros w hs Hw. apply (untouched_same k w _ []); auto. by rewrite app_nil_r.
  - intros w p iv [Ht Hr] _. split; [exact Ht|]. intros q ctx'. wsimpl.
    rewrite lookup_insert. case_decide; [intros [= <-]; apply lookup_empty|apply Hr].
  - intros w p ctx Hw Hp.
    destruct (forEach_onHydrate_spec (map_to_list (subContexts ctx))
                (set_regs (<[p:=with_hydrated ctx true]> (regs w)) w))
      as (evs & Heq & Hevs & _).
    rewrite Heq. destruct Hw as [Ht Hr]. split; wsimpl.
    + apply Forall_app. split; [done|].
      eapply Forall_impl; [exact Hevs|]. intros []; simpl; congruence.
    + intros q ctx'. rewrite lookup_insert.
      case_decide; [subst; intros [= <-]; apply (Hr q _ Hp)|apply Hr].
  - intros o k' Hin Hk' ->. by apply (Hos o).
  - split; [constructor|]. intros q ctx Hq. unfold empty_world in Hq.
    cbn [regs] in Hq. by rewrite lookup_empty in Hq.
Qed.

(** ** Properties of the hooks *)

Lemma epoch_foldl_None e (tr : list (@Event V)) : foldl (epoch_step e) None tr = None.
Proof. induction tr; simpl; auto. Qed.

Lemma epoch_disarmed e (tr : list (@Event V)) :
  EvLastUnsubscribe e ∈ tr \/
  foldl (epoch_step e) (Some false) tr = Some false \/
  foldl (epoch_step e) (Some false) tr = None.
Proof.
  induction tr as [|ev tr IH]; simpl; [auto|].
  destruct ev as [p k hy|p k e' v|l v|k c|k|e']; simpl;
    try (destruct IH as [IH|IH]; [left; by right|right; exact IH]).
  - case_decide; [right; right; apply epoch_foldl_None|].
    destruct IH as [IH|IH]; [left; by right|right; exact IH].
  - case_decide; [subst; left; left|].
    destruct IH as [IH|IH]; [left; by right|right; exact IH].
Qed.

Lemma epoch_step_onSubscribe_self e st p k (v : V) :
  epoch_step e st (EvOnSubscribe p k e v) = Some false \/
  epoch_step e st (EvOnSubscribe p k e v) = None.
Proof. destruct st as [[|]|]; simpl; rewrite ?decide_True by done; auto. Qed.

(** C3: for every run of the hooks, between two calls of [onSubscribe] for
    the same sub context its subscriber count dropped to zero (the last
    unsubscribe happened in between): [onSubscribe] runs at most once per
    subscription epoch, and only a new epoch lets it run again. *)
Theorem onSubscribe_once_per_epoch os tr1 tr2 tr3 p k e (v : V) p' k' v' :
  trace (@run V IV has_window cfg os empty_world) =
    tr1 ++ EvOnSubscribe p k e v :: tr2 ++ EvOnSubscribe p' k' e v' :: tr3 ->
  EvLastUnsubscribe e ∈ tr2.
Proof.
  intros Htr. destruct (epoch_run os) as [_ Hs]. destruct (Hs e) as (a & Ha & _).
  rewrite Htr in Ha. unfold epoch_scan in Ha. rewrite foldl_app in Ha. simpl in Ha.
  rewrite foldl_app in Ha. simpl in Ha.
  destruct (epoch_step_onSubscribe_self e (foldl (epoch_step e) (Some true) tr1) p k v)
    as [H1|H1]; rewrite H1 in Ha.
  - destruct (epoch_disarmed e tr2) as [Hin|[H2|H2]]; [exact Hin| |];
      rewrite H2 in Ha.
    + simpl in Ha. rewrite decide_True in Ha by done.
      rewrite epoch_foldl_None in Ha. discriminate.
    + simpl in Ha. rewrite epoch_foldl_None in Ha. discriminate.
  - rewrite epoch_foldl_None in Ha. simpl in Ha. rewrite epoch_foldl_None in Ha.
    discriminate.
Qed.

(** The last subscriber of a sub context with [persistState: false] leaves:
    the provider forgets the configuration. *)
Lemma evict_spec p k ctx e (sc : @SubContext V) l h (w : @World V IV) :
  wf w -> regs w !! p = Some ctx -> subContexts ctx !! k = Some e ->
  heap w !! e = Some sc -> listeners sc = [l] -> handles w !! h = Some (e, l) ->
  persistState (cfg k) = Some false ->
  exists evs,
    regs (exec has_window cfg (EffectCleanup h) w).1 =
      <[p:=with_subContexts ctx (delete k (subContexts ctx))]> (regs w) /\
    next_eid (exec has_window cfg (EffectCleanup h) w).1 = next_eid w /\
    trace (exec has_window cfg (EffectCleanup h) w).1 = trace w ++ evs.
Proof.
  intros [Hr Hf] Hp Hk He Hl Hh Hps.
  destruct (Hr p ctx k e Hp Hk) as (sc0 & He0 & Ho & Hs).
  rewrite He in He0. injection He0 as <-.
  assert (Hex : exec has_window cfg (EffectCleanup h) w =
                unsubscribe cfg e l (set_handles (delete h (handles w)) w)).
  { cbn [exec]. rewrite bind_eq. unfold get_world at 1. cbv beta iota zeta.
    rewrite Hh. reflexivity. }
  rewrite Hex.
  assert (Hd : set_delete l (listeners sc) = []).
  { unfold set_delete. rewrite Hl. rewrite filter_cons_False by (by intros []). done. }
  assert (He1 : heap (set_handles (delete h (handles w)) w) !! e = Some sc) by exact He.
  rewrite (unsub_last e l sc _ He1 Hd). cbn zeta. wsimpl.
  rewrite Hs, Hps, Ho, Hp.
  destruct (cleanup sc) as [c0|]; wsimpl;
    [exists ([EvLastUnsubscribe e] ++ [EvCleanup k c0]) | exists [EvLastUnsubscribe e]];
    (split; [reflexivity|]); (split; [reflexivity|]); by rewrite ?app_assoc.
Qed.

Lemma evict_recreate p k ctx e (sc : @SubContext V) l h c v0 (w : @World V IV) :
  wf w -> regs w !! p = Some ctx -> subContexts ctx !! k = Some e ->
  heap w !! e = Some sc -> listeners sc = [l] -> handles w !! h = Some (e, l) ->
  persistState (cfg k) = Some false ->
  initialState (cfg k) (initialValues ctx) (isHydrated ctx) = Some v0 ->
  let w' := run has_window cfg [EffectCleanup h; RenderGet p k c] w in
  sub_at w' p k = Some (next_eid w) /\ next_eid w <> e /\
  (exists tr, trace w' = trace w ++ tr /\ EvInitialState p k (isHydrated ctx) ∈ tr) /\
  locals w' !! c = Some (after_onSubscribe has_window cfg k v0).
Proof.
  intros Hw Hp Hk He Hl Hh Hps Hv w'.
  destruct (evict_spec p k ctx e sc l h w Hw Hp Hk He Hl Hh Hps) as (evs & Hr2 & Hn2 & Ht2).
  subst w'. cbn [run].
  set (w2 := (exec has_window cfg (EffectCleanup h) w).1) in *.
  set (ctx2 := with_subContexts ctx (delete k (subContexts ctx))).
  assert (Hp2 : regs w2 !! p = Some ctx2) by (rewrite Hr2; apply lookup_insert_eq).
  assert (Hk2 : subContexts ctx2 !! k = None) by apply lookup_delete_eq.
  destruct (init_create p k ctx2 v0 w2 Hp2 Hk2 Hv) as (loc & evs' & Heq & _).
  cbn [exec]. rewrite bind_eq, Heq. cbv beta iota zeta.
  rewrite bind_eq. unfold load. wsimpl. rewrite lookup_insert_eq.
  cbv beta iota zeta. unfold set_local, modify. wsimpl. rewrite Hn2.
  split; [|split; [|split]].
  - unfold sub_at. wsimpl. rewrite lookup_insert_eq. simpl. apply lookup_insert_eq.
  - intros Hne. destruct Hw as [_ Hf]. rewrite Hf in He by lia. discriminate.
  - rewrite Ht2. eexists. split; [by rewrite <- app_assoc|].
    apply elem_of_app. right. by left.
  - apply lookup_insert_eq.
Qed.

(** C5: a configuration no operation accesses is never initialized and gets
    no sub context (lazy creation); and once the last subscriber of a
    [persistState: false] sub context left, the next read creates a new sub
    context under a fresh id and calls [initialState] again, the reader
    getting the recomputed value. *)
Theorem lazy_creation_and_recompute os k :
  (Forall (fun o => op_key o <> Some k) os ->
     Forall (fun ev => is_initialState_of k ev = false)
       (trace (@run V IV has_window cfg os empty_world)) /\
     forall p, sub_at (@run V IV has_window cfg os empty_world) p k = None) /\
  (forall p ctx e (sc : @SubContext V) l h c v0,
     let w := @run V IV has_window cfg os empty_world in
     regs w !! p = Some ctx -> subContexts ctx !! k = Some e ->
     heap w !! e = Some sc -> listeners sc = [l] -> handles w !! h = Some (e, l) ->
     persistState (cfg k) = Some false ->
     initialState (cfg k) (initialValues ctx) (isHydrated ctx) = Some v0 ->
     let w' := run has_window cfg [EffectCleanup h; RenderGet p k c] w in
     sub_at w' p k = Some (next_eid w) /\ next_eid w <> e /\
     (exists tr, trace w' = trace w ++ tr /\ EvInitialState p k (isHydrated ctx) ∈ tr) /\
     locals w' !! c = Some (after_onSubscribe has_window cfg k v0)).
Proof.
  split.
  - intros Hos. destruct (untouched_run k os (proj1 (Forall_forall _ _) Hos)) as [Ht Hr].
    split; [exact Ht|].
    intros p. unfold sub_at. destruct (regs _ !! p) as [ctx|] eqn:Hp; [|done].
    simpl. by apply (Hr p).
  - intros p ctx e sc l h c v0 w. apply evict_recreate, wf_run.
Qed.

(** C7: under [wf] (every reachable world), an operation under the
    provider [p] leaves another provider's registry and the sub contexts it
    reads unchanged, and two providers never share a sub context. *)
Theorem providers_isolated os o p q k :
  op_provider o = Some p -> q <> p ->
  let w := @run V IV has_window cfg os empty_world in
  let w' := (exec has_window cfg o w).1 in
  regs w' !! q = regs w !! q /\ entry_of w' q k = entry_of w q k /\
  (forall e1 e2, sub_at w p k = Some e1 -> sub_at w q k = Some e2 -> e1 <> e2).
Proof.
  intros Ho Hq w w'. pose proof (wf_run os) as Hw.
  set (k0 := match op_key o with Some k0 => k0 | None => 0 end).
  assert (Hfr : frame_pk p k0 w w').
  { apply exec_frame; auto. intros k' Hk'. subst k0. by rewrite Hk'. }
  split; [|split].
  - destruct Hfr as [A _]. by apply A.
  - eapply frame_entry; eauto.
  - intros e1 e2 H1 H2 ->. destruct Hw as [Hr _]. unfold sub_at in H1, H2.
    destruct (regs w !! p) as [c1|] eqn:Hp1; [|discriminate].
    destruct (regs w !! q) as [c2|] eqn:Hq2; [|discriminate]. simpl in H1, H2.
    destruct (Hr p c1 k e2 Hp1 H1) as (s1 & He1 & Ho1 & _).
    destruct (Hr q c2 k e2 Hq2 H2) as (s2 & He2 & Ho2 & _).
    congruence.
Qed.

(** C8: calling the setter of the configuration [k] under the provider [p]
    leaves the sub context of every other configuration [k'] of [p] exactly
    as it was: same value, subscribers, initialized flag and cleanup. *)
Theorem setter_frame os p k k' ns :
  k' <> k ->
  let w := @run V IV has_window cfg os empty_world in
  entry_of (exec has_window cfg (CallSet p k ns) w).1 p k' = entry_of w p k'.
Proof.
  intros Hk w. pose proof (wf_run os) as Hw.
  eapply frame_entry; [exact Hw| |right; exact Hk].
  apply exec_frame; auto. intros k0 [= ->]. done.
Qed.

(** C9: [updateState] with [NSFun f] stores [f] of the current value, with
    [NSValue v] stores [v]; the rest of the sub context is unchanged, and the
    new value is passed to each registered listener exactly once, in the
    listener set's order. *)
Theorem updateState_semantics e ns (sc : @SubContext V) (w : @World V IV) :
  heap w !! e = Some sc -> NoDup (listeners sc) ->
  let v' := match ns with NSFun f => f (value sc) | NSValue v => v end in
  heap (updateState e ns w).1 !! e = Some (with_value sc v') /\
  (updateState e ns w).2 = Some tt /\
  exists evs, trace (updateState e ns w).1 = trace w ++ evs /\
    evs = map (fun l => EvNotify l v') (listeners sc) /\
    forall l, l ∈ listeners sc ->
      count_occ Listener_eq_dec (notified_listeners evs) l = 1.
Proof.
  intros He Hnd v'. rewrite (updateState_spec e ns sc w He). cbn zeta.
  assert (Hv : apply_new_state ns (value sc) = v') by (subst v'; by destruct ns).
  rewrite Hv. wsimpl. split; [apply lookup_insert_eq|]. split; [done|].
  eexists. split; [reflexivity|]. split; [reflexivity|].
  assert (Hn : forall ls, notified_listeners (map (fun l => EvNotify l v') ls) = ls).
  { induction ls; simpl; congruence. }
  rewrite Hn. intros l Hin. apply list_elem_of_In in Hin.
  revert l Hin. apply (NoDup_count_occ' Listener_eq_dec). by apply NoDup_ListNoDup.
Qed.

(** C10: when [initialState] fails at the creation of a sub context the
    error reaches the caller, no registry and no sub context changed (only
    the attempt is recorded), so the next access runs [initialState]
    again. *)
Theorem init_atomic_on_error p k ctx (w : @World V IV) :
  regs w !! p = Some ctx -> subContexts ctx !! k = None ->
  initialState (cfg k) (initialValues ctx) (isHydrated ctx) = None ->
  let r := initializeSubContext has_window cfg p k w in
  r.2 = None /\ regs r.1 = regs w /\ heap r.1 = heap w /\ next_eid r.1 = next_eid w /\
  trace r.1 = trace w ++ [EvInitialState p k (isHydrated ctx)] /\
  initializeSubContext has_window cfg p k r.1 =
    (add_event (EvInitialState p k (isHydrated ctx)) r.1, None).
Proof.
  intros Hp Hk Hv r. subst r. rewrite (init_throws p k ctx w Hp Hk Hv). wsimpl.
  split; [done|]. split; [done|]. split; [done|]. split; [done|]. split; [done|].
  by apply init_throws.
Qed.

(** What a reader holds after the first render of a provider. *)
Lemma first_render_value p iv k c :
  locals (run has_window cfg [Mount p iv; RenderGet p k c] empty_world) !! c =
  (v ← initialState (cfg k) iv false; Some (after_onSubscribe has_window cfg k v)).
Proof.
  cbn [run]. set (ctx0 := {| initialValues := iv; subContexts := ∅; isHydrated := false |}).
  assert (Hw1 : (exec has_window cfg (Mount p iv) empty_world).1 =
                set_regs (<[p:=ctx0]> ∅) empty_world) by reflexivity.
  rewrite Hw1. set (w1 := set_regs (<[p:=ctx0]> ∅) (@empty_world V IV)).
  assert (Hp : regs w1 !! p = Some ctx0) by apply lookup_insert_eq.
  assert (Hk : subContexts ctx0 !! k = None) by apply lookup_empty.
  destruct (initialState (cfg k) iv false) as [v|] eqn:Hv.
  - destruct (init_create p k ctx0 v w1 Hp Hk Hv) as (loc & evs & Heq & _).
    cbn [exec]. rewrite bind_eq, Heq. cbv beta iota zeta.
    rewrite bind_eq. unfold load. wsimpl. rewrite lookup_insert_eq.
    cbv beta iota zeta. unfold set_local, modify. wsimpl. apply lookup_insert_eq.
  - cbn [exec]. rewrite bind_eq, (init_throws p k ctx0 w1 Hp Hk Hv). reflexivity.
Qed.


(** ** More of the provider and the hooks *)

Lemma forEach_onHydrate_exact es (w : @World V IV) :
  (forall k e, (k, e) ∈ es -> exists sc, heap w !! e = Some sc /\ stateKey sc = k) ->
  forEach_onHydrate has_window cfg es w =
  ({| regs := regs w; heap := heap w; next_eid := next_eid w;
      locals := locals w; handles := handles w;
      trace := trace w ++ hydrate_events has_window cfg es |}, Some tt).
Proof.
  revert w; induction es as [|[k e] es IH]; intros w Hes; cbn [forEach_onHydrate].
  - unfold hydrate_events. cbn [flat_map]. rewrite app_nil_r. by destruct w.
  - destruct (Hes k e) as (sc & He & Hs); [by left|].
    assert (Hes' : forall k' e', (k', e') ∈ es ->
                     exists sc, heap w !! e' = Some sc /\ stateKey sc = k')
      by (intros k' e' Hin; apply Hes; by right).
    unfold hydrate_events. cbn [flat_map]. fold (hydrate_events has_window cfg es).
    rewrite bind_eq. unfold load at 1. rewrite He. cbv beta iota zeta.
    rewrite bind_eq. rewrite Hs.
    destruct (effective_onHydrate has_window cfg k) eqn:Ho.
    + unfold emit, modify. cbv beta iota zeta. rewrite IH by exact Hes'.
      wsimpl. rewrite <- app_assoc. reflexivity.
    + unfold mret, M_ret. cbv beta iota zeta. rewrite IH by exact Hes'.
      reflexivity.
Qed.

(** The provider's mount effect in a well-formed world. *)
Lemma hydrate_exec p ctx (w : @World V IV) :
  wf w -> regs w !! p = Some ctx ->
  exec has_window cfg (Hydrate p) w =
  ({| regs := <[p:=with_hydrated ctx true]> (regs w); heap := heap w;
      next_eid := next_eid w; locals := locals w; handles := handles w;
      trace := trace w ++ hydrate_events has_window cfg (map_to_list (subContexts ctx)) |},
   Some tt).
Proof.
  intros [Hr _] Hp. cbn [exec]. rewrite bind_eq. unfold get_ctx at 1. rewrite Hp.
  cbv beta iota zeta. rewrite bind_eq. unfold put_ctx at 1, modify at 1.
  cbv beta iota zeta. rewrite bind_eq. unfold get_ctx at 1. wsimpl.
  rewrite lookup_insert_eq. cbv beta iota zeta. wsimpl.
  rewrite forEach_onHydrate_exact; [reflexivity|].
  intros k e Hin. apply elem_of_map_to_list in Hin. wsimpl.
  destruct (Hr p ctx k e Hp Hin) as (sc & He & _ & Hs). eauto.
Qed.

Lemma notify_locals_lookup ls (v : V) (loc : gmap nat V) c :
  notify_locals ls v loc !! c =
  if bool_decide (LSetState c ∈ ls) then Some v else loc !! c.
Proof.
  revert loc; induction ls as [|l ls IH]; intros loc; unfold notify_locals in *;
    cbn [foldl].
  - rewrite bool_decide_eq_false_2; [done|]. apply not_elem_of_nil.
  - rewrite IH. rewrite (bool_decide_ext (LSetState c ∈ l :: ls)
                           (LSetState c = l \/ LSetState c ∈ ls))
      by apply elem_of_cons.
    destruct (bool_decide (LSetState c ∈ ls)) eqn:Hb.
    + apply bool_decide_eq_true in Hb.
      rewrite bool_decide_eq_true_2; [done|by right].
    + apply bool_decide_eq_false in Hb. destruct l as [c'|n].
      * destruct (decide (c' = c)) as [->|Hne].
        -- rewrite bool_decide_eq_true_2 by (by left). apply lookup_insert_eq.
        -- rewrite bool_decide_eq_false_2; [by apply lookup_insert_ne|].
           intros [[= ->]|H]; auto.
      * rewrite bool_decide_eq_false_2; [done|]. intros [H|H]; [discriminate|auto].
Qed.

(** Listener sets. *)
Lemma nodup_set_add l ls : NoDup ls -> NoDup (set_add l ls).
Proof.
  intros H. unfold set_add. case_decide as Hin; [done|].
  apply NoDup_app. split; [done|]. split; [|apply NoDup_singleton].
  intros x Hx Hx'. apply list_elem_of_singleton in Hx'. by subst.
Qed.

Lemma nodup_set_delete l ls : NoDup ls -> NoDup (set_delete l ls).
Proof. intros H. by apply NoDup_filter. Qed.

Lemma nodup_touch (w w' : @World V IV) e (sc' : @SubContext V) :
  listeners_nodup w -> heap w' = <[e:=sc']> (heap w) -> NoDup (listeners sc') ->
  listeners_nodup w'.
Proof.
  intros Hw Hh Hn e' sc0. rewrite Hh, lookup_insert.
  case_decide; [intros [= <-]; done|apply Hw].
Qed.

Lemma nodup_same (w w' : @World V IV) :
  listeners_nodup w -> heap w' = heap w -> listeners_nodup w'.
Proof. intros Hw Hh e sc. rewrite Hh. apply Hw. Qed.

Lemma nodup_init p k :
  preserves (@listeners_nodup V IV) (initializeSubContext has_window cfg p k).
Proof.
  intros w Hw. init_cases p k w; cbn [fst].
  - exact Hw.
  - eapply nodup_touch; [exact Hw|reflexivity|]. wsimpl. by apply (Hw e).
  - exact Hw.
  - eapply nodup_touch; [exact Hw|reflexivity|]. wsimpl. constructor.
  - by apply (nodup_same w).
  - exact Hw.
Qed.

Lemma nodup_update e ns : preserves (@listeners_nodup V IV) (updateState e ns).
Proof.
  intros w Hw. destruct (heap w !! e) as [sc|] eqn:He.
  - rewrite (updateState_spec e ns sc w He). cbn [fst].
    eapply nodup_touch; [exact Hw|reflexivity|]. wsimpl. by apply (Hw e).
  - by rewrite updateState_dangling.
Qed.

Lemma nodup_subscribe e l : preserves (@listeners_nodup V IV) (subscribe e l).
Proof.
  intros w Hw. destruct (heap w !! e) as [sc|] eqn:He.
  - rewrite (subscribe_spec e l sc w He). cbn [fst].
    eapply nodup_touch; [exact Hw|reflexivity|]. wsimpl.
    apply nodup_set_add. by apply (Hw e).
  - by rewrite subscribe_dangling.
Qed.

Lemma nodup_unsubscribe e l : preserves (@listeners_nodup V IV) (unsubscribe cfg e l).
Proof.
  intros w Hw. destruct (heap w !! e) as [sc|] eqn:He.
  2:{ by rewrite unsub_dangling. }
  destruct (set_delete l (listeners sc)) as [|l0 ls] eqn:Hl.
  - rewrite (unsub_last e l sc w He Hl).
    destruct (persistState (cfg (stateKey sc))) as [[|]|];
      [| destruct (regs w !! owner sc) as [ctx|] |];
      destruct (cleanup sc); cbn [fst];
      (eapply nodup_touch; [exact Hw|reflexivity|]); wsimpl; constructor.
  - rewrite (unsub_rest e l l0 ls sc w He Hl). cbn [fst].
    eapply nodup_touch; [exact Hw|reflexivity|]. wsimpl.
    rewrite <- Hl. apply nodup_set_delete. by apply (Hw e).
Qed.

Lemma listeners_nodup_run os : @listeners_nodup V IV (run has_window cfg os empty_world).
Proof.
  apply (run_preserves (@listeners_nodup V IV) (fun _ => True)).
  - intros p k _. apply nodup_init.
  - apply nodup_update.
  - apply nodup_subscribe.
  - apply nodup_unsubscribe.
  - intros w c v Hw. by apply (nodup_same w).
  - intros w hs Hw. by apply (nodup_same w).
  - intros w p iv Hw _. by apply (nodup_same w).
  - intros w p ctx Hw _.
    destruct (forEach_onHydrate_spec (map_to_list (subContexts ctx))
                (set_regs (<[p:=with_hydrated ctx true]> (regs w)) w))
      as (evs & Heq & _ & _).
    rewrite Heq. by apply (nodup_same w).
  - done.
  - intros e sc Hq. unfold empty_world in Hq. cbn [heap] in Hq.
    by rewrite lookup_empty in Hq.
Qed.

(** Subscribed sub contexts are initialized. *)
Lemma si_touch (w w' : @World V IV) e (sc' : @SubContext V) :
  subscribed_initialized w -> heap w' = <[e:=sc']> (heap w) ->
  (listeners sc' <> [] -> initialized sc' = true) ->
  subscribed_initialized w'.
Proof.
  intros Hw Hh Hn e' sc0. rewrite Hh, lookup_insert.
  case_decide; [intros [= <-]; done|apply Hw].
Qed.

Lemma si_same (w w' : @World V IV) :
  subscribed_initialized w -> heap w' = heap w -> subscribed_initialized w'.
Proof. intros Hw Hh e sc. rewrite Hh. apply Hw. Qed.

Lemma si_init p k (w : @World V IV) :
  subscribed_initialized w ->
  subscribed_initialized (initializeSubContext has_window cfg p k w).1 /\
  forall e, (initializeSubContext has_window cfg p k w).2 = Some e ->
    exists sc, heap (initializeSubContext has_window cfg p k w).1 !! e = Some sc /\
               initialized sc = true.
Proof.
  intros Hw. init_cases p k w; cbn [fst snd].
  - split; [exact Hw|]. intros e' [= <-]. eauto.
  - split.
    + eapply si_touch; [exact Hw|reflexivity|]. wsimpl. done.
    + intros e' [= <-]. wsimpl. rewrite lookup_insert_eq. eexists; split; reflexivity.
  - split; [exact Hw|discriminate].
  - split.
    + eapply si_touch; [exact Hw|reflexivity|]. wsimpl. done.
    + intros e' [= <-]. wsimpl. rewrite lookup_insert_eq. eexists; split; reflexivity.
  - split; [by apply (si_same w)|discriminate].
  - split; [exact Hw|discriminate].
Qed.

Lemma si_update e ns : preserves (@subscribed_initialized V IV) (updateState e ns).
Proof.
  intros w Hw. destruct (heap w !! e) as [sc|] eqn:He.
  - rewrite (updateState_spec e ns sc w He). cbn [fst].
    eapply si_touch; [exact Hw|reflexivity|]. wsimpl. by apply (Hw e).
  - by rewrite updateState_dangling.
Qed.

Lemma si_unsubscribe e l : preserves (@subscribed_initialized V IV) (unsubscribe cfg e l).
Proof.
  intros w Hw. destruct (heap w !! e) as [sc|] eqn:He.
  2:{ by rewrite unsub_dangling. }
  destruct (set_delete l (listeners sc)) as [|l0 ls] eqn:Hl.
  - rewrite (unsub_last e l sc w He Hl).
    destruct (persistState (cfg (stateKey sc))) as [[|]|];
      [| destruct (regs w !! owner sc) as [ctx|] |];
      destruct (cleanup sc); cbn [fst];
      (eapply si_touch; [exact Hw|reflexivity|]); wsimpl; done.
  - rewrite (unsub_rest e l l0 ls sc w He Hl). cbn [fst].
    eapply si_touch; [exact Hw|reflexivity|]. wsimpl. intros _.
    apply (Hw e sc He). intros Hnil. unfold set_delete in Hl. rewrite Hnil in Hl.
    discriminate.
Qed.

Lemma si_init_subscribe {A} p k l (f : nat * Listener -> M A) :
  (forall r, preserves (@subscribed_initialized V IV) (f r)) ->
  preserves (@subscribed_initialized V IV)
    (e ← initializeSubContext has_window cfg p k; r ← subscribe e l; f r).
Proof.
  intros Hf w Hw. rewrite bind_eq.
  pose proof (si_init p k w Hw) as [H1 H2].
  destruct (initializeSubContext has_window cfg p k w) as [w1 [e|]] eqn:Hi;
    cbn [fst snd] in H1, H2; [|exact H1].
  destruct (H2 e eq_refl) as (sc & He & Hsc).
  rewrite bind_eq, (subscribe_spec e l sc w1 He). cbv beta iota. apply Hf.
  eapply si_touch; [exact H1|reflexivity|]. wsimpl. intros _. exact Hsc.
Qed.

Lemma si_exec o : preserves (@subscribed_initialized V IV) (exec has_window cfg o).
Proof.
  destruct o as [p iv|p|p k c|p k c h|p k n h|p k ns|h]; cbn [exec].
  - intros w Hw. rewrite bind_eq. cbn.
    destruct (regs w !! p); cbn; [exact Hw|by apply (si_same w)].
  - intros w Hw. rewrite bind_eq. unfold get_ctx at 1.
    destruct (regs w !! p) as [ctx|] eqn:Hp; cbn [fst]; [|exact Hw].
    rewrite bind_eq. cbn. rewrite bind_eq. unfold get_ctx. cbn.
    rewrite lookup_insert_eq. cbv beta iota.
    destruct (forEach_onHydrate_spec (map_to_list (subContexts (with_hydrated ctx true)))
                (set_regs (<[p:=with_hydrated ctx true]> (regs w)) w))
      as (evs & Heq & _ & _).
    rewrite Heq. by apply (si_same w).
  - apply preserves_bind; [intros w Hw; by apply si_init|]. intros e.
    apply preserves_bind; [by apply preserves_pure; intros w; unfold load;
                              destruct (heap w !! e)|].
    intros sc w Hw. by apply (si_same w).
  - apply si_init_subscribe. intros r w Hw. by apply (si_same w).
  - apply si_init_subscribe. intros r w Hw. by apply (si_same w).
  - apply preserves_bind; [intros w Hw; by apply si_init|]. intros e. apply si_update.
  - intros w Hw. rewrite bind_eq. cbn.
    destruct (handles w !! h) as [[e l]|]; cbn; [|exact Hw].
    rewrite bind_eq. cbn. apply si_unsubscribe. by apply (si_same w).
Qed.

Lemma si_run os w :
  @subscribed_initialized V IV w -> subscribed_initialized (run has_window cfg os w).
Proof.
  revert w; induction os as [|o os IH]; intros w Hw; cbn [run]; [exact Hw|].
  apply IH, si_exec, Hw.
Qed.


(** Mount effect: in every reachable world, the mount effect of the
    provider [p] marks its context data as hydrated and calls [onHydrate]
    once per configuration it holds a sub context for, changing nothing
    else. *)
Theorem hydrate_marks_and_calls os p ctx :
  let w := @run V IV has_window cfg os empty_world in
  regs w !! p = Some ctx ->
  let w' := (exec has_window cfg (Hydrate p) w).1 in
  regs w' = <[p:=with_hydrated ctx true]> (regs w) /\ heap w' = heap w /\
  locals w' = locals w /\
  trace w' = trace w ++ hydrate_events has_window cfg (map_to_list (subContexts ctx)).
Proof.
  intros w Hp w'. subst w'. rewrite (hydrate_exec p ctx w (wf_run os) Hp). wsimpl.
  auto.
Qed.

(** A sub context created after the provider's mount effect: its
    [initialState] gets [isHydrated = true], after the [onHydrate] calls. *)
Theorem create_after_hydrate os p ctx k c v :
  let w := @run V IV has_window cfg os empty_world in
  regs w !! p = Some ctx -> subContexts ctx !! k = None ->
  initialState (cfg k) (initialValues ctx) true = Some v ->
  let w' := run has_window cfg [Hydrate p; RenderGet p k c] w in
  locals w' !! c = Some (after_onSubscribe has_window cfg k v) /\
  exists tr, trace w' = trace w ++ hydrate_events has_window cfg (map_to_list (subContexts ctx))
                        ++ EvInitialState p k true :: tr.
Proof.
  intros w Hp Hk Hv w'. subst w'. cbn [run].
  rewrite (hydrate_exec p ctx w (wf_run os) Hp). cbn [fst].
  match goal with |- context [exec _ _ (RenderGet p k c) ?w1] => set (W1 := w1) end.
  assert (Hp1 : regs W1 !! p = Some (with_hydrated ctx true)) by apply lookup_insert_eq.
  destruct (init_create p k (with_hydrated ctx true) v W1 Hp1 Hk Hv)
    as (loc & evs & Heq & _).
  cbn [exec]. rewrite bind_eq, Heq. cbv beta iota zeta.
  rewrite bind_eq. unfold load. wsimpl. rewrite lookup_insert_eq.
  cbv beta iota zeta. unfold set_local, modify. wsimpl.
  split; [apply lookup_insert_eq|].
  exists (onSubscribe_calls has_window cfg p k (next_eid w) v ++ evs).
  subst W1. wsimpl. by rewrite <- app_assoc.
Qed.

(** In every reachable world a sub context holds each listener at most
    once, so an update notifies each subscribed listener exactly once and
    no other listener. *)
Theorem reachable_update_notifies_once os e (sc : @SubContext V) ns :
  let w := @run V IV has_window cfg os empty_world in
  heap w !! e = Some sc ->
  NoDup (listeners sc) /\
  exists evs, trace (updateState e ns w).1 = trace w ++ evs /\
    forall l, count_occ Listener_eq_dec (notified_listeners evs) l =
              if bool_decide (l ∈ listeners sc) then 1 else 0.
Proof.
  intros w He. pose proof (listeners_nodup_run os e sc He) as Hnd.
  split; [exact Hnd|].
  rewrite (updateState_spec e ns sc w He). cbn zeta. wsimpl.
  eexists. split; [reflexivity|].
  assert (Hn : forall v ls, notified_listeners (map (fun l => @EvNotify V l v) ls) = ls).
  { induction ls; simpl; congruence. }
  rewrite Hn. intros l. case_bool_decide as Hin.
  - apply list_elem_of_In in Hin. revert l Hin.
    apply (NoDup_count_occ' Listener_eq_dec). by apply NoDup_ListNoDup.
  - apply count_occ_not_In. intros Hin'. apply Hin. by apply list_elem_of_In.
Qed.

(** In every reachable world a sub context with subscribers is marked as
    initialized, so a later subscriber finds it initialized and runs no
    [onSubscribe]: its subscribe effect emits no event and only adds its
    listener to the sub context and records the unsubscribe handle. *)
Theorem subscribed_means_initialized os p ctx k e (sc : @SubContext V) c h :
  let w := @run V IV has_window cfg os empty_world in
  regs w !! p = Some ctx -> subContexts ctx !! k = Some e ->
  heap w !! e = Some sc -> listeners sc <> [] ->
  initialized sc = true /\
  let w' := (exec has_window cfg (EffectGet p k c h) w).1 in
  trace w' = trace w /\ regs w' = regs w /\ locals w' = locals w /\
  next_eid w' = next_eid w /\
  heap w' = <[e:=with_listeners sc (set_add (LSetState c) (listeners sc))]> (heap w) /\
  handles w' = <[h:=(e, LSetState c)]> (handles w).
Proof.
  intros w Hp Hk He Hl.
  assert (Hi : initialized sc = true).
  { refine (si_run os empty_world _ e sc He Hl). intros e' sc' Hq.
    unfold empty_world in Hq. cbn [heap] in Hq. by rewrite lookup_empty in Hq. }
  split; [exact Hi|]. intros w'. subst w'. cbn [exec].
  rewrite bind_eq, (init_found p k ctx e sc w Hp Hk He Hi). cbv beta iota zeta.
  rewrite bind_eq, (subscribe_spec e (LSetState c) sc w He). cbv beta iota zeta.
  unfold modify. wsimpl. auto 7.
Qed.

(** Unsubscribing while another listener (another reader, or a mounted
    setter hook) remains only removes the listener: no cleanup or other
    callback runs, the sub context stays initialized with its value and
    cleanup, and the registry is unchanged. *)
Theorem unsubscribe_with_others_left e l l' (sc : @SubContext V) (w : @World V IV) :
  heap w !! e = Some sc -> l' ∈ listeners sc -> l' <> l ->
  unsubscribe cfg e l w =
  (set_heap (<[e:=with_listeners sc (set_delete l (listeners sc))]> (heap w)) w, Some tt).
Proof.
  intros He Hin Hne.
  destruct (set_delete l (listeners sc)) as [|l0 ls] eqn:Hl.
  - exfalso. assert (Hd : l' ∈ set_delete l (listeners sc))
      by (apply list_elem_of_filter; auto).
    rewrite Hl in Hd. by apply not_elem_of_nil in Hd.
  - by apply unsub_rest.
Qed.

(** The last subscriber leaves: the sub context is marked uninitialized and
    loses no value, its stored cleanup is called once, and the provider
    forgets the configuration only when [persistState] is [false]. *)
Theorem last_unsubscribe e l (sc : @SubContext V) ctx (w : @World V IV) :
  heap w !! e = Some sc -> set_delete l (listeners sc) = [] ->
  regs w !! owner sc = Some ctx ->
  let r := unsubscribe cfg e l w in
  r.2 = Some tt /\
  heap r.1 = <[e:=with_initialized (with_listeners sc []) false]> (heap w) /\
  trace r.1 = trace w ++ EvLastUnsubscribe e :: cleanup_events sc /\
  regs r.1 = match persistState (cfg (stateKey sc)) with
             | Some false =>
                 <[owner sc:=with_subContexts ctx (delete (stateKey sc) (subContexts ctx))]>
                   (regs w)
             | _ => regs w
             end.
Proof.
  intros He Hl Ho r. subst r. rewrite (unsub_last e l sc w He Hl). cbn zeta.
  unfold cleanup_events.
  destruct (persistState (cfg (stateKey sc))) as [[|]|]; [| rewrite Ho |];
    destruct (cleanup sc); wsimpl;
    (split; [reflexivity|]); (split; [reflexivity|]);
    (split; [|reflexivity]); try reflexivity; by rewrite <- app_assoc.
Qed.

(** A reader subscribing to a kept sub context whose subscribers all left
    re-initializes it: [onSubscribe] runs with the kept value (no
    [initialState] call), its cleanup is stored, the same sub context is
    used and the reader is added to its listeners. *)
Theorem resubscribe_reinitializes p k c h ctx e (sc : @SubContext V) (w : @World V IV) :
  regs w !! p = Some ctx -> subContexts ctx !! k = Some e ->
  heap w !! e = Some sc -> initialized sc = false ->
  let w' := (exec has_window cfg (EffectGet p k c h) w).1 in
  regs w' = regs w /\ next_eid w' = next_eid w /\
  heap w' !! e = Some {| value := after_onSubscribe has_window cfg k (value sc);
                         initialized := true;
                         listeners := set_add (LSetState c) (listeners sc);
                         cleanup := onSubscribe_cleanup has_window cfg k (value sc);
                         owner := owner sc; stateKey := stateKey sc |} /\
  handles w' !! h = Some (e, LSetState c) /\
  exists evs, trace w' = trace w ++ onSubscribe_calls has_window cfg p k e (value sc) ++ evs /\
    Forall (fun ev => is_notify ev = true) evs.
Proof.
  intros Hp Hk He Hi w'. subst w'.
  destruct (init_reinit p k ctx e sc w Hp Hk He Hi) as (loc & evs & Heq & Hevs).
  cbn [exec]. rewrite bind_eq, Heq. cbv beta iota zeta.
  rewrite bind_eq. erewrite subscribe_spec; [|wsimpl; apply lookup_insert_eq].
  cbv beta iota zeta. unfold modify. wsimpl.
  split; [done|]. split; [done|]. split; [|split].
  - by rewrite lookup_insert_eq.
  - apply lookup_insert_eq.
  - eauto.
Qed.

(** Rendering a reader of a kept sub context whose subscribers all left
    re-initializes it during the render: [onSubscribe] runs with the kept
    value although nothing subscribes, and the reader gets the value after
    [onSubscribe]'s synchronous updates. *)
Theorem render_reinitializes p k c ctx e (sc : @SubContext V) (w : @World V IV) :
  regs w !! p = Some ctx -> subContexts ctx !! k = Some e ->
  heap w !! e = Some sc -> initialized sc = false ->
  let w' := (exec has_window cfg (RenderGet p k c) w).1 in
  regs w' = regs w /\
  heap w' !! e = Some {| value := after_onSubscribe has_window cfg k (value sc);
                         initialized := true; listeners := listeners sc;
                         cleanup := onSubscribe_cleanup has_window cfg k (value sc);
                         owner := owner sc; stateKey := stateKey sc |} /\
  locals w' !! c = Some (after_onSubscribe has_window cfg k (value sc)) /\
  exists evs, trace w' = trace w ++ onSubscribe_calls has_window cfg p k e (value sc) ++ evs /\
    Forall (fun ev => is_notify ev = true) evs.
Proof.
  intros Hp Hk He Hi w'. subst w'.
  destruct (init_reinit p k ctx e sc w Hp Hk He Hi) as (loc & evs & Heq & Hevs).
  cbn [exec]. rewrite bind_eq, Heq. cbv beta iota zeta.
  rewrite bind_eq. unfold load. wsimpl. rewrite lookup_insert_eq.
  cbv beta iota zeta. unfold set_local, modify. wsimpl.
  split; [done|]. split; [|split].
  - by rewrite lookup_insert_eq.
  - apply lookup_insert_eq.
  - eauto.
Qed.

(** Rendering the first reader of a configuration creates its sub context
    under a fresh id: [initialState] runs once with the provider's initial
    values and hydration flag, then [onSubscribe]; the sub context starts
    with no listener, and the reader gets the value after [onSubscribe]'s
    synchronous updates. *)
Theorem render_creates p k c ctx v (w : @World V IV) :
  regs w !! p = Some ctx -> subContexts ctx !! k = None ->
  initialState (cfg k) (initialValues ctx) (isHydrated ctx) = Some v ->
  let w' := (exec has_window cfg (RenderGet p k c) w).1 in
  sub_at w' p k = Some (next_eid w) /\
  heap w' !! next_eid w = Some {| value := after_onSubscribe has_window cfg k v;
                                  initialized := true; listeners := [];
                                  cleanup := onSubscribe_cleanup has_window cfg k v;
                                  owner := p; stateKey := k |} /\
  locals w' !! c = Some (after_onSubscribe has_window cfg k v) /\
  exists evs, trace w' = trace w ++ EvInitialState p k (isHydrated ctx)
                          :: onSubscribe_calls has_window cfg p k (next_eid w) v ++ evs /\
    Forall (fun ev => is_notify ev = true) evs.
Proof.
  intros Hp Hk Hv w'. subst w'.
  destruct (init_create p k ctx v w Hp Hk Hv) as (loc & evs & Heq & Hevs).
  cbn [exec]. rewrite bind_eq, Heq. cbv beta iota zeta.
  rewrite bind_eq. unfold load. wsimpl. rewrite lookup_insert_eq.
  cbv beta iota zeta. unfold set_local, modify. wsimpl.
  split; [|split; [|split]].
  - unfold sub_at. wsimpl. rewrite lookup_insert_eq. cbn. apply lookup_insert_eq.
  - apply lookup_insert_eq.
  - apply lookup_insert_eq.
  - eauto.
Qed.

(** Rendering a reader of an initialized sub context only reads it: the
    reader's state gets the current value, and nothing else changes (no
    subscription, no callback). *)
Theorem render_reads_only p k c ctx e (sc : @SubContext V) (w : @World V IV) :
  regs w !! p = Some ctx -> subContexts ctx !! k = Some e ->
  heap w !! e = Some sc -> initialized sc = true ->
  exec has_window cfg (RenderGet p k c) w =
  (set_locals (<[c:=value sc]> (locals w)) w, Some tt).
Proof.
  intros Hp Hk He Hi. cbn [exec]. rewrite bind_eq, (init_found p k ctx e sc w Hp Hk He Hi).
  cbv beta iota zeta. rewrite bind_eq. unfold load. rewrite He. reflexivity.
Qed.

(** Two functional updates through the setter compose: the sub context
    ends with [g (f v)], every listener is notified with [f v] and then
    with [g (f v)], and every subscribed reader holds [g (f v)]. *)
Theorem setters_compose p k f g ctx e (sc : @SubContext V) (w : @World V IV) :
  regs w !! p = Some ctx -> subContexts ctx !! k = Some e ->
  heap w !! e = Some sc -> initialized sc = true ->
  let w' := run has_window cfg [CallSet p k (NSFun f); CallSet p k (NSFun g)] w in
  heap w' = <[e:=with_value sc (g (f (value sc)))]> (heap w) /\ regs w' = regs w /\
  trace w' = trace w ++ map (fun l => EvNotify l (f (value sc))) (listeners sc)
                     ++ map (fun l => EvNotify l (g (f (value sc)))) (listeners sc) /\
  forall c, LSetState c ∈ listeners sc -> locals w' !! c = Some (g (f (value sc))).
Proof.
  intros Hp Hk He Hi w'. subst w'. cbn [run].
  assert (Hx : forall h (sc0 : @SubContext V) (w0 : @World V IV),
             regs w0 !! p = Some ctx -> heap w0 !! e = Some sc0 -> initialized sc0 = true ->
             exec has_window cfg (CallSet p k (NSFun h)) w0 = updateState e (NSFun h) w0).
  { intros h sc0 w0 Hp0 He0 Hi0. cbn [exec].
    by rewrite bind_eq, (init_found p k ctx e sc0 w0 Hp0 Hk He0 Hi0). }
  rewrite (Hx f sc w Hp He Hi), (updateState_spec e _ sc w He). cbv zeta.
  cbn [fst apply_new_state].
  match goal with |- context [exec _ _ (CallSet p k (NSFun g)) ?w1] => set (W1 := w1) end.
  assert (He1 : heap W1 !! e = Some (with_value sc (f (value sc))))
    by apply lookup_insert_eq.
  rewrite (Hx g _ W1 Hp He1 Hi), (updateState_spec e _ _ W1 He1). cbv zeta.
  cbn [fst apply_new_state].
  subst W1. wsimpl. rewrite with_value_twice, insert_insert_eq.
  split; [done|]. split; [done|]. split; [by rewrite <- app_assoc|].
  intros c Hc. rewrite notify_locals_lookup. by rewrite bool_decide_eq_true_2.
Qed.

(** Calling the setter of a configuration no component has read creates
    its sub context ([initialState], then [onSubscribe]) and applies the
    update to it; no listener is notified: the trace gets only the
    [initialState] and [onSubscribe] calls and no component's [useState]
    value changes. *)
Theorem setter_creates p k ns ctx v (w : @World V IV) :
  regs w !! p = Some ctx -> subContexts ctx !! k = None ->
  initialState (cfg k) (initialValues ctx) (isHydrated ctx) = Some v ->
  let w' := (exec has_window cfg (CallSet p k ns) w).1 in
  sub_at w' p k = Some (next_eid w) /\
  heap w' !! next_eid w =
    Some {| value := apply_new_state ns (after_onSubscribe has_window cfg k v);
            initialized := true; listeners := [];
            cleanup := onSubscribe_cleanup has_window cfg k v;
            owner := p; stateKey := k |} /\
  locals w' = locals w /\
  trace w' = trace w ++ EvInitialState p k (isHydrated ctx)
                        :: onSubscribe_calls has_window cfg p k (next_eid w) v.
Proof.
  intros Hp Hk Hv w'. subst w'.
  cbn [exec]. rewrite bind_eq, (init_create_silent p k ctx v w Hp Hk Hv).
  cbv beta iota zeta.
  erewrite updateState_spec; [|wsimpl; apply lookup_insert_eq]. cbv zeta. wsimpl.
  cbn [notify_locals foldl map]. rewrite app_nil_r.
  split; [|split; [|split]].
  - unfold sub_at. wsimpl. rewrite lookup_insert_eq. cbn. apply lookup_insert_eq.
  - by rewrite lookup_insert_eq.
  - reflexivity.
  - reflexivity.
Qed.

(** Outside a provider every hook operation and the provider effect throw
    ([use(GlobalStateContext)!] is [undefined]) before changing anything. *)
Theorem hooks_outside_provider_throw o p (w : @World V IV) :
  op_provider o = Some p -> is_mount o = false -> regs w !! p = None ->
  exec has_window cfg o w = (w, None).
Proof.
  intros Ho Hm Hp.
  destruct o as [q iv|q|q k c|q k c h|q k n h|q k ns|h]; cbn [op_provider is_mount] in Ho, Hm;
    try discriminate; injection Ho as ->; cbn [exec]; rewrite bind_eq.
  1: (unfold get_ctx at 1; by rewrite Hp).
  all: by rewrite init_no_provider.
Qed.

End OrboProofs.


(** * Server and client *)

(** C4: without a window no client-only callback runs, whatever the
    operations: no [onSubscribe] call, no cleanup call and no [onHydrate]
    call; of a configuration's functions only [initialState] runs. *)
Theorem server_runs_no_client_callbacks {V IV} (cfg : nat -> @GlobalStateConfig V IV) os :
  let tr := trace (run false cfg os empty_world) in
  (forall p k e v, EvOnSubscribe p k e v ∉ tr) /\
  (forall k c, EvCleanup k c ∉ tr) /\
  (forall k, EvOnHydrate k ∉ tr).
Proof.
  intros tr. assert (H : @ssr_inv V IV (run false cfg os empty_world))
    by (eapply ssr_run; reflexivity).
  destruct H as [Ht _]. rewrite Forall_forall in Ht. fold tr in Ht.
  split; [|split]; intros * Hin; specialize (Ht _ Hin); discriminate.
Qed.

(** * globalStateMemo *)

Module MemoFacts.
Import Memo.
Section MemoFacts.
Context {C R : Type} (contents : nat -> C) (factory : nat -> C -> R).

Lemma memoized_hit f m o (s : @MemoState R) x :
  cache_of s m !! o = Some x -> memoized contents factory (f, m) o s = (s, Some x).
Proof. intros H. unfold memoized. rewrite H. by rewrite H. Qed.

Lemma memoized_miss f m o (s : @MemoState R) :
  cache_of s m !! o = None ->
  let s' := (memoized contents factory (f, m) o s).1 in
  (memoized contents factory (f, m) o s).2 = Some (factory f (contents o)) /\
  factory_calls s' = factory_calls s ++ [(f, o)] /\
  cache_of s' m = <[o:=factory f (contents o)]> (cache_of s m).
Proof.
  intros H s'. subst s'. unfold memoized. rewrite H. cbn.
  unfold cache_of at 1 3. cbn. rewrite lookup_insert_eq.
  split; [apply lookup_insert_eq|]. split; reflexivity.
Qed.

Lemma memoized_cached f m o (s : @MemoState R) :
  exists x, cache_of (memoized contents factory (f, m) o s).1 m !! o = Some x /\
            (memoized contents factory (f, m) o s).2 = Some x.
Proof.
  destruct (cache_of s m !! o) as [x|] eqn:H.
  - rewrite (memoized_hit f m o s x H). eauto.
  - destruct (memoized_miss f m o s H) as (H1 & _ & H3). rewrite H3, H1.
    eexists; split; [apply lookup_insert_eq|reflexivity].
Qed.

Lemma memoized_calls f m o (s : @MemoState R) :
  length (factory_calls (memoized contents factory (f, m) o s).1) <=
  S (length (factory_calls s)).
Proof.
  destruct (cache_of s m !! o) as [x|] eqn:H.
  - rewrite (memoized_hit f m o s x H). simpl. lia.
  - destruct (memoized_miss f m o s H) as (_ & H2 & _). rewrite H2, length_app. simpl. lia.
Qed.

(** C6: the closure of [globalStateMemo(factory)] called twice with one
    object calls the factory at most once and returns the same cached
    result; called afterwards with another object (of any contents, for a
    factory seen for the first time) it calls the factory again and
    returns the factory's result for that object. *)
Theorem memo_by_identity f o o2 (s : @MemoState R) :
  let s0 := (globalStateMemo f s).1 in
  let fm := (globalStateMemo f s).2 in
  let r1 := memoized contents factory fm o s0 in
  let r2 := memoized contents factory fm o r1.1 in
  (r1.2 = r2.2 /\ r1.2 <> None /\ factory_calls r2.1 = factory_calls r1.1 /\
   length (factory_calls r1.1) <= S (length (factory_calls s))) /\
  (outer s !! f = None -> o2 <> o ->
   factory_calls r1.1 = factory_calls s ++ [(f, o)] /\
   (memoized contents factory fm o2 r1.1).2 = Some (factory f (contents o2)) /\
   factory_calls (memoized contents factory fm o2 r1.1).1 =
     factory_calls r1.1 ++ [(f, o2)]).
Proof.
  intros s0 fm r1 r2.
  assert (Hfm : fm = (f, fm.2))
    by (subst fm; unfold globalStateMemo; by destruct (outer s !! f)).
  assert (Hs0 : factory_calls s0 = factory_calls s)
    by (subst s0; unfold globalStateMemo; by destruct (outer s !! f)).
  subst r1 r2. rewrite Hfm. set (m := fm.2).
  destruct (memoized_cached f m o s0) as (x & Hx1 & Hx2).
  split.
  - rewrite (memoized_hit f m o _ x Hx1), Hx2.
    split; [done|]. split; [done|]. split; [done|].
    rewrite <- Hs0. apply memoized_calls.
  - intros Hf Hne.
    assert (Hm : cache_of s0 m = ∅).
    { subst s0 m fm. unfold globalStateMemo. rewrite Hf. unfold cache_of. cbn.
      by rewrite lookup_insert_eq. }
    assert (Hmiss : cache_of s0 m !! o = None) by (by rewrite Hm).
    destruct (memoized_miss f m o s0 Hmiss) as (_ & H2 & H3).
    split; [by rewrite H2, Hs0|].
    assert (Hmiss2 : cache_of (memoized contents factory (f, m) o s0).1 m !! o2 = None)
      by (rewrite H3, Hm, lookup_insert_ne by done; apply lookup_empty).
    destruct (memoized_miss f m o2 _ Hmiss2) as (H1' & H2' & _).
    split; [exact H1'|exact H2'].
Qed.


Lemma memoized_all_inv f m os (s : @MemoState R) seen :
  (forall o, cache_of s m !! o =
             if bool_decide (o ∈ seen) then Some (factory f (contents o)) else None) ->
  NoDup seen ->
  let r := memoized_all contents factory (f, m) os s in
  let new := first_occurrences seen os in
  factory_calls r.1 = factory_calls s ++ map (pair f) new /\
  NoDup (seen ++ new) /\ (forall o, o ∈ seen ++ new <-> o ∈ seen \/ o ∈ os) /\
  r.2 = map (fun o => Some (factory f (contents o))) os.
Proof.
  revert s seen; induction os as [|o os IH]; intros s seen Hc Hnd;
    cbn [memoized_all first_occurrences].
  - rewrite !app_nil_r. split; [done|]. split; [done|].
    split; [|done]. intros o. split; [auto|]. intros [H|H]; [done|by apply not_elem_of_nil in H].
  - destruct (cache_of s m !! o) as [x|] eqn:Ho.
    + rewrite (memoized_hit f m o s x Ho).
      pose proof (Hc o) as Hx. rewrite Ho in Hx. case_bool_decide as Hin; [|discriminate].
      rewrite decide_True by done.
      destruct (IH s seen Hc Hnd) as (H1 & H2 & H3 & H4).
      destruct (memoized_all contents factory (f, m) os s) as [s2 rs]. cbn [fst snd] in *.
      split; [done|]. split; [done|]. split.
      * intros o'. rewrite H3, elem_of_cons. split; [intuition|]. intros [H|[->|H]]; auto.
      * rewrite H4. cbn [map]. congruence.
    + pose proof (Hc o) as Hx. rewrite Ho in Hx.
      case_bool_decide as Hin; [discriminate|].
      rewrite decide_False by done.
      destruct (memoized_miss f m o s Ho) as (H1 & H2 & H3).
      destruct (memoized contents factory (f, m) o s) as [s1 r1]. cbn [fst snd] in *.
      assert (Hc1 : forall o', cache_of s1 m !! o' =
                      if bool_decide (o' ∈ seen ++ [o])
                      then Some (factory f (contents o')) else None).
      { intros o'. rewrite H3, lookup_insert. case_decide as Heq.
        - subst o'. rewrite bool_decide_eq_true_2; [done|].
          apply elem_of_app. right. by left.
        - rewrite Hc, (bool_decide_ext (o' ∈ seen ++ [o]) (o' ∈ seen)); [done|].
          rewrite elem_of_app, list_elem_of_singleton. intuition congruence. }
      assert (Hnd1 : NoDup (seen ++ [o])).
      { apply NoDup_app. split; [done|]. split; [|apply NoDup_singleton].
        intros x Hx' Hy. apply list_elem_of_singleton in Hy. by subst. }
      destruct (IH s1 (seen ++ [o]) Hc1 Hnd1) as (G1 & G2 & G3 & G4).
      destruct (memoized_all contents factory (f, m) os s1) as [s2 rs].
      cbn [fst snd] in *.
      split; [|split; [|split]].
      * rewrite G1, H2, <- app_assoc. reflexivity.
      * rewrite <- app_assoc in G2. exact G2.
      * intros o'. specialize (G3 o'). rewrite <- app_assoc in G3. cbn [app] in G3.
        rewrite G3. set_solver.
      * rewrite G4, H1. reflexivity.
Qed.

(** The closure of [globalStateMemo] for a factory not seen before, called
    on any sequence of objects, calls the factory exactly once for each
    distinct object of the sequence, at its first occurrence (the calls are
    the objects of [os] deduplicated in order), and returns the factory's
    result for each object. *)
Theorem memo_factory_once_per_object f os (s : @MemoState R) :
  outer s !! f = None ->
  let s0 := (globalStateMemo f s).1 in
  let fm := (globalStateMemo f s).2 in
  let r := memoized_all contents factory fm os s0 in
  factory_calls r.1 = factory_calls s ++ map (pair f) (first_occurrences [] os) /\
  NoDup (first_occurrences [] os) /\
  (forall o, o ∈ first_occurrences [] os <-> o ∈ os) /\
  r.2 = map (fun o => Some (factory f (contents o))) os.
Proof.
  intros Hf s0 fm r. subst s0 fm r. unfold globalStateMemo. rewrite Hf. cbn [fst snd].
  set (s0 := {| outer := _; inner := _; next_map := _; factory_calls := _ |}).
  assert (Hc : forall o, cache_of s0 (next_map s) !! o =
               if bool_decide (o ∈ []) then Some (factory f (contents o)) else None).
  { intros o. rewrite bool_decide_eq_false_2 by apply not_elem_of_nil.
    unfold cache_of. cbn [inner s0]. rewrite lookup_insert_eq. apply lookup_empty. }
  destruct (memoized_all_inv f (next_map s) os s0 [] Hc (NoDup_nil_2))
    as (H1 & H2 & H3 & H4).
  split; [exact H1|]. split; [exact H2|]. split; [|exact H4].
  intros o. rewrite (H3 o). split; [intros [H|H]; [by apply not_elem_of_nil in H|done]|auto].
Qed.




End MemoFacts.
End MemoFacts.

(** * Runs of the examples *)

(** C1: with [cfg_sync] both renders call [initialState] once with the
    same initial values and the hydration flag [false], yet the server
    render reads 0 and the first client render reads 1: on the client
    [onSubscribe] ran during the creation of the sub context, inside the
    reader's [useState] initializer, and its synchronous [updateState]
    changed the value before the initializer returned. *)
Theorem first_render_diverges :
  let ws := run false cfg_sync ops_first_render empty_world in
  let wc := run true cfg_sync ops_first_render empty_world in
  trace ws = [EvInitialState 0 0 false] /\
  trace wc = [EvInitialState 0 0 false; EvOnSubscribe 0 0 0 0] /\
  locals ws !! 1 = Some 0 /\ locals wc !! 1 = Some 1.
Proof. vm_compute. repeat split. Qed.

(** C2: reader 2 rendered before the state was set to 1 and subscribed
    after; its [useState] value stays 0 while reader 1 and the sub context
    hold 1, and both readers are subscribed. *)
Theorem late_subscriber_is_stale :
  let w := run true cfg_plain ops_late_subscriber empty_world in
  locals w !! 1 = Some 1 /\ locals w !! 2 = Some 0 /\
  option_map value (entry_of w 0 0) = Some 1 /\
  option_map listeners (entry_of w 0 0) = Some [LSetState 1; LSetState 2].
Proof. vm_compute. repeat split. Qed.

Lemma onSubscribe_once_per_epoch_witness :
  trace (run true cfg_sync ops_resubscribe empty_world) =
    [EvInitialState 0 0 false] ++ EvOnSubscribe 0 0 0 0 ::
    [EvLastUnsubscribe 0; EvCleanup 0 7] ++ EvOnSubscribe 0 0 0 1 :: [] /\
  EvLastUnsubscribe 0 ∈ [@EvLastUnsubscribe nat 0; EvCleanup 0 7].
Proof.
  assert (H : trace (run true cfg_sync ops_resubscribe empty_world) =
    [EvInitialState 0 0 false] ++ EvOnSubscribe 0 0 0 0 ::
    [EvLastUnsubscribe 0; EvCleanup 0 7] ++ EvOnSubscribe 0 0 0 1 :: [])
    by (vm_compute; reflexivity).
  split; [exact H|]. exact (onSubscribe_once_per_epoch true cfg_sync ops_resubscribe _ _ _
                              0 0 0 0 0 0 1 H).
Defined.

Lemma lazy_creation_and_recompute_witness :
  Forall (fun ev => is_initialState_of 1 ev = false)
    (trace (run true cfg_evict ops_one_reader empty_world)) /\
  (let w := run true cfg_evict ops_one_reader empty_world in
   let w' := run true cfg_evict [EffectCleanup 10; RenderGet 0 0 2] w in
   sub_at w' 0 0 = Some (next_eid w) /\ next_eid w <> 0 /\
   (exists tr, trace w' = trace w ++ tr /\ EvInitialState 0 0 false ∈ tr) /\
   locals w' !! 2 = Some (after_onSubscribe true cfg_evict 0 0)).
Proof.
  destruct (lazy_creation_and_recompute true cfg_evict ops_one_reader 1) as [Ha _].
  destruct (lazy_creation_and_recompute true cfg_evict ops_one_reader 0) as [_ Hb].
  split.
  - apply Ha. apply (bool_decide_unpack _). vm_compute. exact I.
  - apply (Hb 0 {| initialValues := tt; subContexts := {[0 := 0]}; isHydrated := false |}
              0 {| value := 0; initialized := true; listeners := [LSetState 1];
                   cleanup := None; owner := 0; stateKey := 0 |}
              (LSetState 1) 10 2 0);
      vm_compute; reflexivity.
Defined.

Lemma providers_isolated_witness :
  let w := run true cfg_plain ops_two_providers empty_world in
  let w' := (exec true cfg_plain (CallSet 0 0 (NSValue 5)) w).1 in
  regs w' !! 1 = regs w !! 1 /\ entry_of w' 1 0 = entry_of w 1 0 /\
  (forall e1 e2, sub_at w 0 0 = Some e1 -> sub_at w 1 0 = Some e2 -> e1 <> e2).
Proof.
  apply (providers_isolated true cfg_plain ops_two_providers (CallSet 0 0 (NSValue 5)) 0 1 0).
  - reflexivity.
  - lia.
Defined.

Lemma setter_frame_witness :
  let w := run true cfg_plain [Mount 0 tt; EffectGet 0 0 1 10; EffectGet 0 1 2 11]
             empty_world in
  entry_of (exec true cfg_plain (CallSet 0 0 (NSValue 5)) w).1 0 1 = entry_of w 0 1.
Proof.
  apply (setter_frame true cfg_plain [Mount 0 tt; EffectGet 0 0 1 10; EffectGet 0 1 2 11]
           0 0 1 (NSValue 5)).
  lia.
Defined.

Lemma updateState_semantics_witness :
  let w := run true cfg_plain ops_late_subscriber empty_world in
  let sc := {| value := 1; initialized := true; listeners := [LSetState 1; LSetState 2];
               cleanup := None; owner := 0; stateKey := 0 |} in
  heap (updateState 0 (NSFun S) w).1 !! 0 = Some (with_value sc 2) /\
  (updateState 0 (NSFun S) w).2 = Some tt /\
  exists evs, trace (updateState 0 (NSFun S) w).1 = trace w ++ evs /\
    evs = map (fun l => EvNotify l 2) (listeners sc) /\
    forall l, l ∈ listeners sc ->
      count_occ Listener_eq_dec (notified_listeners evs) l = 1.
Proof.
  apply (updateState_semantics 0 (NSFun S)).
  - vm_compute. reflexivity.
  - apply (bool_decide_unpack _). vm_compute. exact I.
Defined.

Lemma init_atomic_on_error_witness :
  let w := run true cfg_throw [Mount 0 tt] empty_world in
  let r := initializeSubContext true cfg_throw 0 0 w in
  r.2 = None /\ regs r.1 = regs w /\ heap r.1 = heap w /\ next_eid r.1 = next_eid w /\
  trace r.1 = trace w ++ [EvInitialState 0 0 false] /\
  initializeSubContext true cfg_throw 0 0 r.1 =
    (add_event (EvInitialState 0 0 false) r.1, None).
Proof.
  apply (init_atomic_on_error true cfg_throw 0 0
           {| initialValues := tt; subContexts := ∅; isHydrated := false |}).
  - vm_compute. reflexivity.
  - reflexivity.
  - reflexivity.
Defined.

Lemma memo_by_identity_witness :
  let s := {| Memo.outer := ∅; Memo.inner := ∅; Memo.next_map := 0;
              Memo.factory_calls := [] |} : @Memo.MemoState nat in
  let s0 := (Memo.globalStateMemo 7 s).1 in
  let fm := (Memo.globalStateMemo 7 s).2 in
  let r1 := Memo.memoized (fun _ => 0) Nat.add fm 1 s0 in
  Memo.factory_calls r1.1 = Memo.factory_calls s ++ [(7, 1)] /\
  (Memo.memoized (fun _ => 0) Nat.add fm 2 r1.1).2 = Some (Nat.add 7 0) /\
  Memo.factory_calls (Memo.memoized (fun _ => 0) Nat.add fm 2 r1.1).1 =
    Memo.factory_calls r1.1 ++ [(7, 2)].
Proof.
  apply (proj2 (MemoFacts.memo_by_identity (fun _ => 0) Nat.add 7 1 2
                  {| Memo.outer := ∅; Memo.inner := ∅; Memo.next_map := 0;
                     Memo.factory_calls := [] |})).
  - reflexivity.
  - lia.
Defined.

(** ** Runs of the further properties *)

Lemma hydrate_marks_and_calls_witness :
  let w := run true cfg_hydrate ops_one_reader empty_world in
  let ctx := {| initialValues := tt; subContexts := {[0 := 0]}; isHydrated := false |} in
  let w' := (exec true cfg_hydrate (Hydrate 0) w).1 in
  regs w' = <[0:=with_hydrated ctx true]> (regs w) /\ heap w' = heap w /\
  locals w' = locals w /\
  trace w' = trace w ++ hydrate_events true cfg_hydrate (map_to_list (subContexts ctx)).
Proof.
  apply (hydrate_marks_and_calls true cfg_hydrate ops_one_reader 0
           {| initialValues := tt; subContexts := {[0 := 0]}; isHydrated := false |}).
  vm_compute. reflexivity.
Defined.

Lemma create_after_hydrate_witness :
  let w := run true cfg_hydrate ops_one_reader empty_world in
  let ctx := {| initialValues := tt; subContexts := {[0 := 0]}; isHydrated := false |} in
  let w' := run true cfg_hydrate [Hydrate 0; RenderGet 0 1 2] w in
  locals w' !! 2 = Some (after_onSubscribe true cfg_hydrate 1 1) /\
  exists tr, trace w' = trace w ++ hydrate_events true cfg_hydrate (map_to_list (subContexts ctx))
                        ++ EvInitialState 0 1 true :: tr.
Proof.
  apply (create_after_hydrate true cfg_hydrate ops_one_reader 0
           {| initialValues := tt; subContexts := {[0 := 0]}; isHydrated := false |} 1 2 1).
  - vm_compute. reflexivity.
  - reflexivity.
  - reflexivity.
Defined.

Lemma reachable_update_notifies_once_witness :
  let w := run true cfg_plain ops_late_subscriber empty_world in
  let sc := {| value := 1; initialized := true; listeners := [LSetState 1; LSetState 2];
               cleanup := None; owner := 0; stateKey := 0 |} in
  NoDup (listeners sc) /\
  exists evs, trace (updateState 0 (NSValue 5) w).1 = trace w ++ evs /\
    forall l, count_occ Listener_eq_dec (notified_listeners evs) l =
              if bool_decide (l ∈ listeners sc) then 1 else 0.
Proof.
  apply (reachable_update_notifies_once true cfg_plain ops_late_subscriber 0
           {| value := 1; initialized := true; listeners := [LSetState 1; LSetState 2];
              cleanup := None; owner := 0; stateKey := 0 |} (NSValue 5)).
  vm_compute. reflexivity.
Defined.

Lemma subscribed_means_initialized_witness :
  let w := run true cfg_sync ops_one_reader empty_world in
  let ctx : @GlobalStateContextData unit :=
    {| initialValues := tt; subContexts := <[0:=0]> ∅; isHydrated := false |} in
  let sc := {| value := 1; initialized := true; listeners := [@LSetState 1];
               cleanup := Some 7; owner := 0; stateKey := 0 |} in
  initialized sc = true /\
  let w' := (exec true cfg_sync (EffectGet 0 0 2 11) w).1 in
  trace w' = trace w /\ regs w' = regs w /\ locals w' = locals w /\
  next_eid w' = next_eid w /\
  heap w' = <[0:=with_listeners sc (set_add (LSetState 2) (listeners sc))]> (heap w) /\
  handles w' = <[11:=(0, LSetState 2)]> (handles w).
Proof.
  apply (subscribed_means_initialized true cfg_sync ops_one_reader 0
           {| initialValues := tt; subContexts := <[0:=0]> ∅; isHydrated := false |} 0 0
           {| value := 1; initialized := true; listeners := [@LSetState 1];
              cleanup := Some 7; owner := 0; stateKey := 0 |} 2 11).
  - vm_compute. reflexivity.
  - vm_compute. reflexivity.
  - vm_compute. reflexivity.
  - apply (bool_decide_unpack _). vm_compute. exact I.
Defined.

Lemma unsubscribe_with_others_left_witness :
  let w := run true cfg_plain ops_late_subscriber empty_world in
  let sc := {| value := 1; initialized := true; listeners := [LSetState 1; LSetState 2];
               cleanup := None; owner := 0; stateKey := 0 |} in
  unsubscribe cfg_plain 0 (LSetState 2) w =
  (set_heap (<[0:=with_listeners sc (set_delete (LSetState 2) (listeners sc))]> (heap w)) w,
   Some tt).
Proof.
  apply (unsubscribe_with_others_left cfg_plain 0 (LSetState 2) (LSetState 1)).
  - vm_compute. reflexivity.
  - apply (bool_decide_unpack _). vm_compute. exact I.
  - apply (bool_decide_unpack _). vm_compute. exact I.
Defined.

Lemma last_unsubscribe_witness :
  let w := run true cfg_sync ops_one_reader empty_world in
  let sc := {| value := 1; initialized := true; listeners := [LSetState 1];
               cleanup := Some 7; owner := 0; stateKey := 0 |} in
  let ctx := {| initialValues := tt; subContexts := {[0 := 0]}; isHydrated := false |} in
  let r := unsubscribe cfg_sync 0 (LSetState 1) w in
  r.2 = Some tt /\
  heap r.1 = <[0:=with_initialized (with_listeners sc []) false]> (heap w) /\
  trace r.1 = trace w ++ EvLastUnsubscribe 0 :: cleanup_events sc /\
  regs r.1 = match persistState (cfg_sync (stateKey sc)) with
             | Some false =>
                 <[owner sc:=with_subContexts ctx (delete (stateKey sc) (subContexts ctx))]>
                   (regs w)
             | _ => regs w
             end.
Proof.
  apply (last_unsubscribe cfg_sync 0 (LSetState 1)).
  - vm_compute. reflexivity.
  - vm_compute. reflexivity.
  - vm_compute. reflexivity.
Defined.

Lemma resubscribe_reinitializes_witness :
  let w := run true cfg_sync [Mount 0 tt; EffectGet 0 0 1 10; EffectCleanup 10] empty_world in
  let sc := {| value := 1; initialized := false; listeners := [];
               cleanup := Some 7; owner := 0; stateKey := 0 |} in
  let w' := (exec true cfg_sync (EffectGet 0 0 2 11) w).1 in
  regs w' = regs w /\ next_eid w' = next_eid w /\
  heap w' !! 0 = Some {| value := after_onSubscribe true cfg_sync 0 (value sc);
                         initialized := true;
                         listeners := set_add (LSetState 2) (listeners sc);
                         cleanup := onSubscribe_cleanup true cfg_sync 0 (value sc);
                         owner := owner sc; stateKey := stateKey sc |} /\
  handles w' !! 11 = Some (0, LSetState 2) /\
  exists evs, trace w' = trace w ++ onSubscribe_calls true cfg_sync 0 0 0 (value sc) ++ evs /\
    Forall (fun ev => is_notify ev = true) evs.
Proof.
  apply (resubscribe_reinitializes true cfg_sync 0 0 2 11
           {| initialValues := tt; subContexts := {[0 := 0]}; isHydrated := false |}).
  - vm_compute. reflexivity.
  - reflexivity.
  - vm_compute. reflexivity.
  - reflexivity.
Defined.

Lemma render_reinitializes_witness :
  let w := run true cfg_sync [Mount 0 tt; EffectGet 0 0 1 10; EffectCleanup 10] empty_world in
  let sc := {| value := 1; initialized := false; listeners := [];
               cleanup := Some 7; owner := 0; stateKey := 0 |} in
  let w' := (exec true cfg_sync (RenderGet 0 0 2) w).1 in
  regs w' = regs w /\
  heap w' !! 0 = Some {| value := after_onSubscribe true cfg_sync 0 (value sc);
                         initialized := true; listeners := listeners sc;
                         cleanup := onSubscribe_cleanup true cfg_sync 0 (value sc);
                         owner := owner sc; stateKey := stateKey sc |} /\
  locals w' !! 2 = Some (after_onSubscribe true cfg_sync 0 (value sc)) /\
  exists evs, trace w' = trace w ++ onSubscribe_calls true cfg_sync 0 0 0 (value sc) ++ evs /\
    Forall (fun ev => is_notify ev = true) evs.
Proof.
  apply (render_reinitializes true cfg_sync 0 0 2
           {| initialValues := tt; subContexts := {[0 := 0]}; isHydrated := false |}).
  - vm_compute. reflexivity.
  - reflexivity.
  - vm_compute. reflexivity.
  - reflexivity.
Defined.

Lemma render_creates_witness :
  let w := run true cfg_sync [Mount 0 tt] empty_world in
  let ctx := {| initialValues := tt; subContexts := ∅; isHydrated := false |} in
  let w' := (exec true cfg_sync (RenderGet 0 0 1) w).1 in
  sub_at w' 0 0 = Some (next_eid w) /\
  heap w' !! next_eid w = Some {| value := after_onSubscribe true cfg_sync 0 0;
                                  initialized := true; listeners := [];
                                  cleanup := onSubscribe_cleanup true cfg_sync 0 0;
                                  owner := 0; stateKey := 0 |} /\
  locals w' !! 1 = Some (after_onSubscribe true cfg_sync 0 0) /\
  exists evs, trace w' = trace w ++ EvInitialState 0 0 (isHydrated ctx)
                          :: onSubscribe_calls true cfg_sync 0 0 (next_eid w) 0 ++ evs /\
    Forall (fun ev => is_notify ev = true) evs.
Proof.
  apply (render_creates true cfg_sync 0 0 1
           {| initialValues := tt; subContexts := ∅; isHydrated := false |}).
  - vm_compute. reflexivity.
  - reflexivity.
  - reflexivity.
Defined.

Lemma render_reads_only_witness :
  let w := run true cfg_plain ops_one_reader empty_world in
  exec true cfg_plain (RenderGet 0 0 2) w = (set_locals (<[2:=0]> (locals w)) w, Some tt).
Proof.
  apply (render_reads_only true cfg_plain 0 0 2
           {| initialValues := tt; subContexts := {[0 := 0]}; isHydrated := false |} 0
           {| value := 0; initialized := true; listeners := [LSetState 1];
              cleanup := None; owner := 0; stateKey := 0 |}).
  - vm_compute. reflexivity.
  - reflexivity.
  - vm_compute. reflexivity.
  - reflexivity.
Defined.

Lemma setters_compose_witness :
  let w := run true cfg_plain ops_one_reader empty_world in
  let sc := {| value := 0; initialized := true; listeners := [LSetState 1];
               cleanup := None; owner := 0; stateKey := 0 |} in
  let w' := run true cfg_plain [CallSet 0 0 (NSFun S); CallSet 0 0 (NSFun (Nat.mul 2))] w in
  heap w' = <[0:=with_value sc (Nat.mul 2 (S (value sc)))]> (heap w) /\ regs w' = regs w /\
  trace w' = trace w ++ map (fun l => EvNotify l (S (value sc))) (listeners sc)
                     ++ map (fun l => EvNotify l (Nat.mul 2 (S (value sc)))) (listeners sc) /\
  forall c, LSetState c ∈ listeners sc -> locals w' !! c = Some (Nat.mul 2 (S (value sc))).
Proof.
  apply (setters_compose true cfg_plain 0 0 S (Nat.mul 2)
           {| initialValues := tt; subContexts := {[0 := 0]}; isHydrated := false |} 0).
  - vm_compute. reflexivity.
  - reflexivity.
  - vm_compute. reflexivity.
  - reflexivity.
Defined.

Lemma setter_creates_witness :
  let w := run true cfg_sync [Mount 0 tt] empty_world in
  let ctx := {| initialValues := tt; subContexts := ∅; isHydrated := false |} in
  let w' := (exec true cfg_sync (CallSet 0 0 (NSFun S)) w).1 in
  sub_at w' 0 0 = Some (next_eid w) /\
  heap w' !! next_eid w =
    Some {| value := apply_new_state (NSFun S) (after_onSubscribe true cfg_sync 0 0);
            initialized := true; listeners := [];
            cleanup := onSubscribe_cleanup true cfg_sync 0 0;
            owner := 0; stateKey := 0 |} /\
  locals w' = locals w /\
  trace w' = trace w ++ EvInitialState 0 0 (isHydrated ctx)
                        :: onSubscribe_calls true cfg_sync 0 0 (next_eid w) 0.
Proof.
  apply (setter_creates true cfg_sync 0 0 (NSFun S)
           {| initialValues := tt; subContexts := ∅; isHydrated := false |}).
  - vm_compute. reflexivity.
  - reflexivity.
  - reflexivity.
Defined.

Lemma hooks_outside_provider_throw_witness :
  exec true cfg_plain (CallSet 0 0 (NSValue 1)) empty_world = (empty_world, None).
Proof.
  apply (hooks_outside_provider_throw true cfg_plain (CallSet 0 0 (NSValue 1)) 0).
  - reflexivity.
  - reflexivity.
  - reflexivity.
Defined.

(** [initialState] of the dark-mode example calls one memoized function five
    times with the same initial values. *)
Lemma memo_factory_once_per_object_witness :
  let s := {| Memo.outer := ∅; Memo.inner := ∅; Memo.next_map := 0;
              Memo.factory_calls := [] |} : @Memo.MemoState nat in
  let s0 := (Memo.globalStateMemo 7 s).1 in
  let fm := (Memo.globalStateMemo 7 s).2 in
  let r := Memo.memoized_all (fun _ => 0) Nat.add fm [1; 1; 1; 1; 1] s0 in
  Memo.first_occurrences [] [1; 1; 1; 1; 1] = [1] /\
  Memo.factory_calls r.1 =
    Memo.factory_calls s ++ map (pair 7) (Memo.first_occurrences [] [1; 1; 1; 1; 1]) /\
  NoDup (Memo.first_occurrences [] [1; 1; 1; 1; 1]) /\
  (forall o, o ∈ Memo.first_occurrences [] [1; 1; 1; 1; 1] <-> o ∈ [1; 1; 1; 1; 1]) /\
  r.2 = map (fun o => Some (Nat.add 7 0)) [1; 1; 1; 1; 1].
Proof.
  split; [reflexivity|].
  apply (MemoFacts.memo_factory_once_per_object (fun _ => 0) Nat.add 7 [1; 1; 1; 1; 1]).
  reflexivity.
Defined.
